(** * Zodel: the SSE client of the web front end and the Zflow executor

    Definitions:
    - [Js]: the JavaScript string operations that [web/src/lib/sse.ts]
      uses ([split], [join], [startsWith], [slice], [trimEnd], [trim]),
      over strings as sequences of UTF-16 code units;
    - [Host]: JSON values, exceptions, the built-ins taken from the
      platform, and the response of [fetch];
    - [Sse], [FlowsPage], [ChatPage]: [parseSseLines], [parseEventBlock],
      [fetchSse], [FlowsPage.run] and the Zflow loop of [ChatPage.send];
    - [Json]: a reference [JSON.parse] to run the client on examples;
    - [Zflow]: variable kinds and the executor, which live in the Python
      back end and are modelled from the specification;
    - [Framing], [SseView]: lines and blocks of a stream text, the fields
      of a block, the rendering of a message;
    - [FlowsLoad]: [load] of the Flows page;
    - [ChatSend]: [historyTurns], the routing of the request and [send]
      in Zflow mode;
    - [Providers]: locale and theme, their storage and the document class.
    The properties follow, module by module. *)

From stdpp Require Import base list strings gmap.
From Stdlib Require Import NArith Lia.

Set Warnings "-register-all".

(** ** JavaScript strings *)

Module Js.

(** A JavaScript string is a finite sequence of UTF-16 code units. *)
Abbreviation jstring := (list N).

(** ASCII literals: one code unit per character. *)
Definition js (s : string) : jstring :=
  (λ a, N.of_nat (Ascii.nat_of_ascii a)) <$> String.list_ascii_of_string s.

(** The same, reading an apostrophe as a double quote (JSON literals). *)
Definition jsq (s : string) : jstring :=
  (λ c, if (c =? 39)%N then 34%N else c) <$> js s.

Definition is_empty (s : jstring) : bool :=
  match s with [] => true | _ => false end.

(** [s.startsWith(p)] *)
Fixpoint startsWith (p s : jstring) : bool :=
  match p, s with
  | [], _ => true
  | _ :: _, [] => false
  | a :: p', b :: s' => (a =? b)%N && startsWith p' s'
  end.

(** [s.slice(n)] for [0 <= n] *)
Definition slice (n : nat) (s : jstring) : jstring := drop n s.

(** WhiteSpace and LineTerminator code points of ECMA-262, the characters
    that [trim], [trimStart] and [trimEnd] strip. *)
Definition isWhiteSpace (c : N) : bool :=
  ((9 <=? c) && (c <=? 13) || (c =? 32) || (c =? 160) || (c =? 5760)
   || (8192 <=? c) && (c <=? 8202) || (c =? 8232) || (c =? 8233)
   || (c =? 8239) || (c =? 8287) || (c =? 12288) || (c =? 65279))%N.

Fixpoint trimStart (s : jstring) : jstring :=
  match s with
  | [] => []
  | c :: s' => if isWhiteSpace c then trimStart s' else s
  end.

Fixpoint trimEnd (s : jstring) : jstring :=
  match s with
  | [] => []
  | c :: s' =>
      match trimEnd s' with
      | [] => if isWhiteSpace c then [] else [c]
      | t => c :: t
      end
  end.

Definition trim (s : jstring) : jstring := trimStart (trimEnd s).

(** The leftmost occurrence of [sep] in [s]: the text before it and the
    text after it. *)
Fixpoint cut (sep s : jstring) {struct s} : option (jstring * jstring) :=
  if startsWith sep s then Some ([], drop (length sep) s)
  else match s with
       | [] => None
       | c :: s' =>
           match cut sep s' with
           | Some (a, b) => Some (c :: a, b)
           | None => None
           end
       end.

(** [s.split(sep)]: cut at the leftmost occurrence, go on after it. The
    fuel bounds the number of cuts; [length s] is enough for a separator
    that is not empty ([split_unfold]). *)
Fixpoint split_from (fuel : nat) (sep s : jstring) : list jstring :=
  match cut sep s with
  | None => [s]
  | Some (a, b) =>
      match fuel with
      | 0 => [s]
      | S f => a :: split_from f sep b
      end
  end.

Definition split (sep s : jstring) : list jstring :=
  match sep with
  | [] => (λ c, [c]) <$> s
  | _ => split_from (length s) sep s
  end.

(** [parts.join(sep)] *)
Fixpoint join (sep : jstring) (parts : list jstring) : jstring :=
  match parts with
  | [] => []
  | [p] => p
  | p :: rest => p ++ sep ++ join sep rest
  end.

(** [sep] occurs in [s] as a substring. *)
Definition occurs (sep s : jstring) : Prop := ∃ a b, s = a ++ sep ++ b.

Definition nl : jstring := [10%N].
Definition nlnl : jstring := [10%N; 10%N].

End Js.

(** ** Values, exceptions and the host platform *)

Module Host.
Import Js.

(** What [JSON.parse] returns. A number keeps the numeral as it is written
    in the text; no function below looks inside it. An object keeps its
    members in source order, duplicates included. *)
Inductive JsonValue : Type :=
  | JNull
  | JBool (b : bool)
  | JNumber (literal : jstring)
  | JString (s : jstring)
  | JArray (elements : list JsonValue)
  | JObject (members : list (jstring * JsonValue)).

Inductive Exn : Type :=
  | SyntaxError
  | TypeError
  | HttpError (status : N).

(** A JavaScript computation returns or throws. *)
Inductive completion (A : Type) : Type :=
  | Normal (a : A)
  | Throw (e : Exn).
Arguments Normal {A} a.
Arguments Throw {A} e.

#[export] Instance completion_ret : MRet completion := @Normal.
#[export] Instance completion_bind : MBind completion :=
  λ A B f m, match m with Normal a => f a | Throw e => Throw e end.

(** The built-in functions of the platform that the code calls:
    [JSON.parse], which throws [SyntaxError] on text that is not JSON, and
    the conversion of a number (given by its numeral) to a string. *)
Class Platform : Type := {
  JSON_parse : jstring → completion JsonValue;
  Number_toString : jstring → jstring
}.

(** [res] of [await fetch(url, init)]: [body] holds the texts that
    [decoder.decode(value, { stream: true })] gives for the successive
    results of [reader.read()], up to the one with [done]. *)
Record Response : Type := {
  ok : bool;
  status : N;
  body : option (list jstring)
}.

End Host.

(** ** web/src/lib/sse.ts *)

Module Sse.
Import Js Host.

(** [SseMessage], the declared union of message shapes. *)
Inductive SseMessage : Type :=
  | MsgStart
  | MsgDelta (text : jstring)
  | MsgDone
  | MsgError (message : jstring)
  | MsgModelInfo (model : jstring).


(** The object a message of the declared type is at run time. *)
Definition repr (m : SseMessage) : JsonValue :=
  match m with
  | MsgStart => JObject [(js "type", JString (js "start"))]
  | MsgDelta text =>
      JObject [(js "type", JString (js "delta")); (js "text", JString text)]
  | MsgDone => JObject [(js "type", JString (js "done"))]
  | MsgError message =>
      JObject [(js "type", JString (js "error"));
               (js "message", JString message)]
  | MsgModelInfo model =>
      JObject [(js "type", JString (js "model_info"));
               (js "model", JString model)]
  end.

(** The property names of a value, in order. *)
Definition keys (v : JsonValue) : list jstring :=
  match v with
  | JObject members => fst <$> members
  | _ => []
  end.

Record SseLines : Type := { events : list jstring; rest : jstring }.

Definition parseSseLines (buffer : jstring) : SseLines :=
  let parts := split nlnl buffer in
  let rest := default [] (last parts) in      (* parts.pop() ?? "" *)
  {| events := removelast parts; rest := rest |}.

Record EventBlock : Type := { event : jstring; data : jstring }.

(** One turn of the [for (const raw of lines)] loop of [parseEventBlock]. *)
Definition block_line (acc : EventBlock) (raw : jstring) : EventBlock :=
  let line := trimEnd raw in
  if is_empty line then acc
  else if startsWith (js "event:") line then
    {| event := trim (slice (length (js "event:")) line); data := data acc |}
  else if startsWith (js "data:") line then
    {| event := event acc;
       data := data acc ++ trim (slice (length (js "data:")) line) |}
  else acc.

Definition parseEventBlock (block : jstring) : option EventBlock :=
  let lines := split nl block in
  let acc := foldl block_line {| event := js "message"; data := [] |} lines in
  if is_empty (data acc) then None else Some acc.

(** An async generator run to its end: the values it yielded, in order,
    and how it finished. *)
Definition Gen : Type := list JsonValue * completion ().

Definition skip : Gen := ([], Normal ()).
Definition yield (v : JsonValue) : Gen := ([v], Normal ()).
Definition raise (e : Exn) : Gen := ([], Throw e).

Definition seq_gen (g1 g2 : Gen) : Gen :=
  match g1 with
  | (ys, Normal _) => (ys ++ g2.1, g2.2)
  | (ys, Throw e) => (ys, Throw e)
  end.

Definition try_catch (g : Gen) (handler : Exn → Gen) : Gen :=
  match g with
  | (ys, Normal _) => g
  | (ys, Throw e) => (ys ++ (handler e).1, (handler e).2)
  end.

Definition for_of {A} (xs : list A) (body : A → Gen) : Gen :=
  foldr (λ x g, seq_gen (body x) g) skip xs.

Section WithPlatform.
Context `{Platform}.

(** The body of [for (const block of events)]. *)
Definition on_block (block : jstring) : Gen :=
  match parseEventBlock block with
  | None => skip                                        (* continue *)
  | Some parsed =>
      try_catch
        (match JSON_parse (data parsed) with
         | Normal msg => yield msg
         | Throw e => raise e
         end)
        (λ _, skip)                          (* ignore malformed events *)
  end.

(** The [while (true)] loop, from a buffer and the reads still to come. *)
Fixpoint read_loop (buffer : jstring) (reads : list jstring) : Gen :=
  match reads with
  | [] => skip                                          (* done: break *)
  | value :: reads' =>
      let buffer := buffer ++ value in
      let lines := parseSseLines buffer in
      seq_gen (for_of (events lines) on_block) (read_loop (rest lines) reads')
  end.

Definition fetchSse (res : Response) : Gen :=
  match body res with
  | Some reads =>
      if ok res then read_loop [] reads
      else raise (HttpError (status res))
  | None => raise (HttpError (status res))
  end.

End WithPlatform.
End Sse.

(** ** The Flows page ([FlowsPage.run]) *)

Module FlowsPage.
Import Js Host Sse.

(** The two pieces of component state that [run] writes. *)
Record State : Type := { output : jstring; busy : bool }.

Definition setOutput (f : jstring → jstring) (st : State) : State :=
  {| output := f (output st); busy := busy st |}.
Definition setBusy (b : bool) (st : State) : State :=
  {| output := output st; busy := b |}.

(** An own property of an object built by [JSON.parse]: of two members
    with one name the later one stays. *)
Fixpoint get_own (k : jstring) (members : list (jstring * JsonValue))
  : option JsonValue :=
  match members with
  | [] => None
  | (k', v) :: members' =>
      match get_own k members' with
      | Some v' => Some v'
      | None => if decide (k = k') then Some v else None
      end
  end.

(** [v.k] for the names read here ([type], [text], [message]), which no
    prototype defines: reading from [null] throws, a value that is not an
    object has no such property ([None] is [undefined]). *)
Definition get (v : JsonValue) (k : jstring) : completion (option JsonValue) :=
  match v with
  | JNull => Throw TypeError
  | JObject members => Normal (get_own k members)
  | _ => Normal None
  end.

(** [x === lit] for a string literal. *)
Definition is_string (x : option JsonValue) (lit : jstring) : bool :=
  match x with
  | Some (JString s) => bool_decide (s = lit)
  | _ => false
  end.

Section WithPlatform.
Context `{Platform}.

(** The string a value turns into under [+] with a string and inside a
    template literal. An array is joined with commas, [null] elements
    giving the empty string; an object gives "[object Object]" unless a
    member named [toString] hides the inherited method, and then the
    conversion throws. *)
Fixpoint ToString (v : JsonValue) : completion jstring :=
  match v with
  | JNull => Normal (js "null")
  | JBool b => Normal (if b then js "true" else js "false")
  | JNumber literal => Normal (Number_toString literal)
  | JString s => Normal s
  | JArray elements =>
      ss ← (fix items (l : list JsonValue) : completion (list jstring) :=
              match l with
              | [] => Normal []
              | x :: l' =>
                  s ← match x with JNull => Normal [] | _ => ToString x end;
                  ss ← items l';
                  Normal (s :: ss)
              end) elements;
      Normal (join (js ",") ss)
  | JObject members =>
      match get_own (js "toString") members with
      | Some _ => Throw TypeError
      | None => Normal (js "[object Object]")
      end
  end.

Definition ToString_opt (x : option JsonValue) : completion jstring :=
  match x with
  | None => Normal (js "undefined")
  | Some v => ToString v
  end.

(** The body of the [for await] loop. The two updaters run in the order
    they are queued; an exception raised while one computes the new output
    is taken as thrown by the loop body. React runs an updater when it
    renders, not inside the loop: this is the loop of the page on the
    values for which no updater throws ([PageValues.updaters_total], every
    value whose [text] and [message] are strings among them). *)
Definition on_evt (evt : JsonValue) (st : State) : completion State :=
  ty ← get evt (js "type");
  st ← (if is_string ty (js "delta") then
          text ← get evt (js "text");
          s ← ToString_opt text;
          Normal (setOutput (λ p, p ++ s) st)
        else Normal st);
  ty ← get evt (js "type");
  if is_string ty (js "error") then
    message ← get evt (js "message");
    s ← ToString_opt message;
    Normal (setOutput (λ p, p ++ (nl ++ js "Error: " ++ s ++ nl)) st)
  else Normal st.

(** [for await (const evt of ...)] over the values a generator yields:
    the loop stops at the first exception of its body. *)
Fixpoint for_await (msgs : list JsonValue) (st : State)
  : State * completion () :=
  match msgs with
  | [] => (st, Normal ())
  | evt :: msgs' =>
      match on_evt evt st with
      | Normal st' => for_await msgs' st'
      | Throw e => (st, Throw e)
      end
  end.

Definition run (res : Response) (st : State) : State * completion () :=
  let st := setBusy true st in
  let st := setOutput (λ _, []) st in
  let '(msgs, fin) := fetchSse res in
  let '(st, c) := for_await msgs st in
  let c := match c with Normal _ => fin | Throw e => Throw e end in
  (setBusy false st, c).                                      (* finally *)

End WithPlatform.
End FlowsPage.

(** ** The chat page in Zflow mode ([ChatPage.send]) *)

Module ChatPage.
Import Js Host Sse FlowsPage.

Inductive Role : Type := user | assistant.

Record ChatMessage : Type := {
  role : Role;
  content : jstring;
  model : option jstring
}.

Section WithPlatform.
Context `{Platform}.

(** The first message of a list whose role is [assistant] is replaced. *)
Fixpoint update_first_assistant (f : ChatMessage → completion ChatMessage)
    (msgs : list ChatMessage) : completion (list ChatMessage) :=
  match msgs with
  | [] => Normal []
  | m :: rest =>
      match role m with
      | assistant => m' ← f m; Normal (m' :: rest)
      | user => rest' ← update_first_assistant f rest; Normal (m :: rest')
      end
  end.

(** The loop [for (let i = next.length - 1; i >= 0; i--)] of the updaters:
    the last message whose role is [assistant] is replaced. *)
Definition update_last_assistant (f : ChatMessage → completion ChatMessage)
    (prev : list ChatMessage) : completion (list ChatMessage) :=
  next ← update_first_assistant f (reverse prev); Normal (reverse next).

(** The body of the [for await] loop of the [zflow] branch of [send]. As
    on the Flows page, an exception raised inside an updater is taken as
    thrown by the loop body, which is right on the values for which no
    updater throws ([PageValues.updaters_total]). *)
Definition on_evt (evt : JsonValue) (prev : list ChatMessage)
  : completion (list ChatMessage) :=
  ty ← get evt (js "type");
  if is_string ty (js "delta") then
    text ← get evt (js "text");
    update_last_assistant
      (λ m, s ← ToString_opt text;
            Normal {| role := role m; content := content m ++ s;
                      model := model m |})
      prev
  else if is_string ty (js "error") then
    update_last_assistant
      (λ m, message ← get evt (js "message");
            s ← ToString_opt message;
            Normal {| role := role m; content := js "Error: " ++ s;
                      model := model m |})
      prev
  else Normal prev.

End WithPlatform.
End ChatPage.

(** ** A reference platform

    A reader of the JSON grammar (ECMA-404), used to run the client on
    concrete streams. The theorems below hold for every [Platform]. *)

Module Json.
Import Js Host.
Local Open Scope N_scope.

Definition is_ws (c : N) : bool :=
  (c =? 32) || (c =? 9) || (c =? 10) || (c =? 13).

Fixpoint skip_ws (s : jstring) : jstring :=
  match s with
  | c :: s' => if is_ws c then skip_ws s' else s
  | [] => []
  end.

Definition is_digit (c : N) : bool := (48 <=? c) && (c <=? 57).

(** The longest prefix of digits, and what follows it. *)
Fixpoint digits (s : jstring) : jstring * jstring :=
  match s with
  | c :: s' =>
      if is_digit c then let '(d, r) := digits s' in (c :: d, r) else ([], s)
  | [] => ([], [])
  end.

Definition hex (c : N) : option N :=
  if is_digit c then Some (c - 48)
  else if (97 <=? c) && (c <=? 102) then Some (c - 87)
  else if (65 <=? c) && (c <=? 70) then Some (c - 55)
  else None.

Definition unescape (c : N) : option N :=
  if (c =? 34) || (c =? 92) || (c =? 47) then Some c
  else if c =? 98 then Some 8
  else if c =? 102 then Some 12
  else if c =? 110 then Some 10
  else if c =? 114 then Some 13
  else if c =? 116 then Some 9
  else None.

(** The characters of a string literal after its opening quote, and the
    text after its closing quote. *)
Fixpoint chars (s : jstring) : option (jstring * jstring) :=
  match s with
  | [] => None
  | c :: r =>
      if c =? 34 then Some ([], r)
      else if c =? 92 then
        match r with
        | [] => None
        | e :: r1 =>
            if e =? 117 then
              match r1 with
              | h1 :: h2 :: h3 :: h4 :: r2 =>
                  match hex h1, hex h2, hex h3, hex h4 with
                  | Some a, Some b, Some c', Some d =>
                      match chars r2 with
                      | Some (t, r') =>
                          Some ((((a * 16 + b) * 16 + c') * 16 + d) :: t, r')
                      | None => None
                      end
                  | _, _, _, _ => None
                  end
              | _ => None
              end
            else
              match unescape e, chars r1 with
              | Some x, Some (t, r') => Some (x :: t, r')
              | _, _ => None
              end
        end
      else if c <? 32 then None
      else
        match chars r with
        | Some (t, r') => Some (c :: t, r')
        | None => None
        end
  end.

(** A numeral: its text, and what follows it. *)
Definition number (s : jstring) : option (jstring * jstring) :=
  let '(sign, s1) :=
    match s with
    | c :: r => if c =? 45 then ([c], r) else ([], s)
    | [] => ([], s)
    end in
  let '(int, s2) := digits s1 in
  let int_ok :=
    match int with
    | [] => false
    | [_] => true
    | c :: _ => negb (c =? 48)
    end in
  if negb int_ok then None
  else
    let frac :=
      match s2 with
      | c :: r =>
          if c =? 46 then
            let '(f, s3) := digits r in
            if is_empty f then None else Some (c :: f, s3)
          else Some ([], s2)
      | [] => Some ([], s2)
      end in
    match frac with
    | None => None
    | Some (f, s3) =>
        match s3 with
        | c :: r =>
            if (c =? 101) || (c =? 69) then
              let '(sg, r') :=
                match r with
                | c' :: r' =>
                    if (c' =? 43) || (c' =? 45) then ([c'], r') else ([], r)
                | [] => ([], r)
                end in
              let '(e, s4) := digits r' in
              if is_empty e then None
              else Some (sign ++ int ++ f ++ c :: sg ++ e, s4)
            else Some (sign ++ int ++ f, s3)
        | [] => Some (sign ++ int ++ f, s3)
        end
    end.

Fixpoint value (fuel : nat) (s : jstring) : option (JsonValue * jstring) :=
  match fuel with
  | O => None
  | S fuel =>
      let s := skip_ws s in
      if startsWith (js "null") s then Some (JNull, drop 4 s)
      else if startsWith (js "true") s then Some (JBool true, drop 4 s)
      else if startsWith (js "false") s then Some (JBool false, drop 5 s)
      else
        match s with
        | [] => None
        | c :: r =>
            if c =? 34 then
              match chars r with
              | Some (t, r') => Some (JString t, r')
              | None => None
              end
            else if c =? 91 then
              match skip_ws r with
              | c' :: r' =>
                  if c' =? 93 then Some (JArray [], r')
                  else
                    match items fuel r with
                    | Some (vs, r'') => Some (JArray vs, r'')
                    | None => None
                    end
              | [] => None
              end
            else if c =? 123 then
              match skip_ws r with
              | c' :: r' =>
                  if c' =? 125 then Some (JObject [], r')
                  else
                    match members fuel r with
                    | Some (ms, r'') => Some (JObject ms, r'')
                    | None => None
                    end
              | [] => None
              end
            else
              match number s with
              | Some (lit, r') => Some (JNumber lit, r')
              | None => None
              end
        end
  end
with items (fuel : nat) (s : jstring) : option (list JsonValue * jstring) :=
  match fuel with
  | O => None
  | S fuel =>
      match value fuel s with
      | None => None
      | Some (v, r) =>
          match skip_ws r with
          | c :: r' =>
              if c =? 44 then
                match items fuel r' with
                | Some (vs, r'') => Some (v :: vs, r'')
                | None => None
                end
              else if c =? 93 then Some ([v], r')
              else None
          | [] => None
          end
      end
  end
with members (fuel : nat) (s : jstring)
  : option (list (jstring * JsonValue) * jstring) :=
  match fuel with
  | O => None
  | S fuel =>
      match skip_ws s with
      | q :: r0 =>
          if q =? 34 then
            match chars r0 with
            | None => None
            | Some (k, r1) =>
                match skip_ws r1 with
                | colon :: r2 =>
                    if colon =? 58 then
                      match value fuel r2 with
                      | None => None
                      | Some (v, r3) =>
                          match skip_ws r3 with
                          | c :: r4 =>
                              if c =? 44 then
                                match members fuel r4 with
                                | Some (ms, r5) => Some ((k, v) :: ms, r5)
                                | None => None
                                end
                              else if c =? 125 then Some ([(k, v)], r4)
                              else None
                          | [] => None
                          end
                      end
                    else None
                | [] => None
                end
            end
          else None
      | [] => None
      end
  end.

Definition parse (text : jstring) : completion JsonValue :=
  match value (2 * length text + 4) text with
  | Some (v, r) => if is_empty (skip_ws r) then Normal v else Throw SyntaxError
  | None => Throw SyntaxError
  end.

(** The platform of the examples: numerals print as they are written. *)
Definition reference : Platform :=
  {| JSON_parse := parse; Number_toString := λ literal, literal |}.

End Json.

(** ** Zflow: variable kinds and the executor

    The lexer, the parser and the executor of Zflow belong to the Python
    back end, which is not among the source files; the definitions of this
    module follow the specification. *)

Module Zflow.
Import Stdlib.Strings.Ascii.

Inductive Kind : Type := Model | Prompt | Input.

Inductive ParseError : Type :=
  | UnknownVariableKind
  | VariableKindMismatch
  | UndefinedVariable
  | EmptyWorkflow
  | DuplicateKindMismatch
  | SyntaxError.

Inductive result (E A : Type) : Type :=
  | Ok (a : A)
  | Err (e : E).
Arguments Ok {E A} a.
Arguments Err {E A} e.

Definition is_uppercase (c : ascii) : bool :=
  (65 <=? nat_of_ascii c) && (nat_of_ascii c <=? 90).

Definition starts_with (c : ascii) (name : string) : bool :=
  match name with
  | String c' _ => bool_decide (c' = c)
  | EmptyString => false
  end.

Definition one_uppercase_letter (name : string) : bool :=
  match name with
  | String c EmptyString => is_uppercase c
  | _ => false
  end.

(** Modelled from the spec: the classification of a variable by its name
    (section 3, Variable), a function of the parser, which is missing from
    the sources. *)
Definition infer_kind (name : string) : result ParseError Kind :=
  if one_uppercase_letter name then Ok Model
  else if starts_with "p"%char name then Ok Prompt
  else if starts_with "i"%char name then Ok Input
  else Err UnknownVariableKind.

Record ZVariable : Type := { name : string; kind : Kind; value : string }.

Record OperatorCall : Type := {
  model : ZVariable;
  prompt : option ZVariable;
  extraInput : option ZVariable
}.

(** Modelled from the spec: the workflow tree of section 3. *)
Inductive Workflow : Type :=
  | Call (c : OperatorCall)
  | Sequential (left right : Workflow)
  | Parallel (branches : list OperatorCall).

Inductive Stage : Type :=
  | CallStage (c : OperatorCall)
  | ParallelStage (branches : list OperatorCall).

(** Modelled from the spec: the left-to-right chain of stages of a
    workflow (section 3), which the missing executor walks. *)
Fixpoint stages (w : Workflow) : list Stage :=
  match w with
  | Call c => [CallStage c]
  | Sequential l r => stages l ++ stages r
  | Parallel bs => [ParallelStage bs]
  end.

Inductive OutEvent : Type :=
  | delta (text : string)
  | error (message : string)
  | done.

Record BackendError : Type := { provider : string; cause : string }.

(** Modelled from the spec: what one invocation of the backend contract
    (section 6) produces when nothing cancels it: its chunks in generation
    order, then success or a [BackendError]. The backends are external. *)
Record Stream : Type := {
  chunks : list string;
  failure : option BackendError
}.

Definition newline : string := String (ascii_of_nat 10) EmptyString.

Definition text_of (chunks : list string) : string := String.concat "" chunks.

(** The siblings of branch [i] among [n] branches, in declared order. *)
Definition siblings (i n : nat) : list nat := filter (λ j, j ≠ i) (seq 0 n).

(** Modelled from the spec: how a Parallel stage of the missing executor
    ends (section 4.3). It resolves, with the output of every branch
    stored under the position of the branch, or fails at one branch. The
    failure cancels all the siblings of that branch: [cancelled] lists the
    branches whose cancellation token is set, [completed] holds the
    outputs that had come in before, which the stage drops (no partial
    success). *)
Inductive ParallelOutcome : Type :=
  | Resolved (slots : gmap nat string)
  | Failed (branch : nat) (e : BackendError)
           (completed : gmap nat string) (cancelled : list nat).

Section Executor.

(** The backend contract, [invoke modelId systemPrompt userContent
    sideContext]. *)
Variable invoke : string → option string → string → option string → Stream.

(** The scheduler: [pick stage inflight] chooses, among the branches of
    stage number [stage] that are still in flight, the position (modulo
    their number) of the one that finishes next. *)
Variable pick : nat → list nat → nat.

Definition call_stream (c : OperatorCall) (buffer : string) : Stream :=
  invoke (value (model c)) (value <$> prompt c) buffer
         (value <$> extraInput c).

(** The whole output of one call on a buffer. *)
Definition output_of (buffer : string) (c : OperatorCall) : string :=
  text_of (chunks (call_stream c buffer)).

(** Modelled from the spec: an OperatorCall stage (section 4.3). The chunks
    of a final stage are forwarded as [delta] events, those of an
    intermediate stage only accumulated; a failure emits one [error]. *)
Definition run_call (final : bool) (c : OperatorCall) (buffer : string)
  : list OutEvent * option string :=
  let s := call_stream c buffer in
  let forwarded := if final then delta <$> chunks s else [] in
  match failure s with
  | Some e => (forwarded ++ [error (cause e)], None)
  | None => (forwarded, Some (text_of (chunks s)))
  end.

(** Modelled from the spec: the branches of a Parallel stage finishing one
    after another in the order the scheduler gives (section 4.3, fail-fast).
    [n] bounds the number of steps. *)
Fixpoint await_branches (n stage : nat) (streams : list Stream)
    (inflight : list nat) (slots : gmap nat string) : ParallelOutcome :=
  match n with
  | O => Resolved slots
  | S n' =>
      let k := pick stage inflight `mod` length inflight in
      match inflight !! k with
      | None => Resolved slots
      | Some i =>
          match streams !! i with
          | None => Resolved slots
          | Some s =>
              match failure s with
              | Some e => Failed i e slots (siblings i (length streams))
              | None =>
                  await_branches n' stage streams (delete k inflight)
                    (<[i := text_of (chunks s)]> slots)
              end
          end
      end
  end.

(** Modelled from the spec: the merge of the missing executor (section
    4.3), the outputs in the declared left-to-right order with a newline
    between. *)
Definition merge (n : nat) (slots : gmap nat string) : string :=
  String.concat newline ((λ i, default "" (slots !! i)) <$> seq 0 n).

(** Modelled from the spec: the fan-out of a Parallel stage (section 4.3):
    one invocation per branch, each on the buffer that enters the stage,
    all in flight at once. *)
Definition run_branches (stage : nat) (branches : list OperatorCall)
    (buffer : string) : ParallelOutcome :=
  let streams := (λ c, call_stream c buffer) <$> branches in
  await_branches (length branches) stage streams
                 (seq 0 (length branches)) ∅.

(** Modelled from the spec: a Parallel stage (section 4.3). Every branch
    reads the buffer that enters the stage; a final stage emits its
    combined output as a single [delta]. *)
Definition run_parallel (final : bool) (stage : nat)
    (branches : list OperatorCall) (buffer : string)
  : list OutEvent * option string :=
  match run_branches stage branches buffer with
  | Resolved slots =>
      let out := merge (length branches) slots in
      (if final then [delta out] else [], Some out)
  | Failed _ e _ _ => ([error (cause e)], None)
  end.

Definition run_stage (final : bool) (stage : nat) (st : Stage)
    (buffer : string) : list OutEvent * option string :=
  match st with
  | CallStage c => run_call final c buffer
  | ParallelStage bs => run_parallel final stage bs buffer
  end.

Definition is_last {A} (l : list A) : bool :=
  match l with [] => true | _ => false end.

(** Modelled from the spec: the run, stage by stage (section 4.3,
    Termination): [done] after the last stage, nothing after an [error]. *)
Fixpoint run_stages (stage : nat) (sts : list Stage) (buffer : string)
  : list OutEvent :=
  match sts with
  | [] => [done]
  | st :: sts' =>
      match run_stage (is_last sts') stage st buffer with
      | (evs, Some buffer') => evs ++ run_stages (S stage) sts' buffer'
      | (evs, None) => evs
      end
  end.

(** Modelled from the spec: [execute] of the missing executor (section 4.3),
    on a tree whose calls hold their resolved variables. *)
Definition execute (ast : Workflow) (rootInput : string) : list OutEvent :=
  run_stages 0 (stages ast) rootInput.

(** The buffer that leaves a chain of intermediate stages, if none fails. *)
Fixpoint run_intermediate (stage : nat) (sts : list Stage) (buffer : string)
  : option string :=
  match sts with
  | [] => Some buffer
  | st :: sts' =>
      match run_stage false stage st buffer with
      | (_, Some buffer') => run_intermediate (S stage) sts' buffer'
      | (_, None) => None
      end
  end.

End Executor.

(** The variables, calls, stub backends and schedulers of the examples
    (section 8). *)
Definition var_A : ZVariable :=
  {| name := "A"; kind := Model; value := "provX:m1" |}.
Definition var_B : ZVariable :=
  {| name := "B"; kind := Model; value := "provX:m2" |}.
Definition var_p1 : ZVariable :=
  {| name := "p1"; kind := Prompt; value := "a" |}.
Definition var_p2 : ZVariable :=
  {| name := "p2"; kind := Prompt; value := "b" |}.
Definition A_p1 : OperatorCall :=
  {| model := var_A; prompt := Some var_p1; extraInput := None |}.
Definition B_p2 : OperatorCall :=
  {| model := var_B; prompt := Some var_p2; extraInput := None |}.

(** Echoes the user content in two chunks. *)
Definition stub_echo (modelId : string) (systemPrompt : option string)
    (userContent : string) (sideContext : option string) : Stream :=
  {| chunks := [String.substring 0 2 userContent;
                String.substring 2 (String.length userContent - 2) userContent];
     failure := None |}.

(** Answers "X" for model [m1] and "Y" for any other. *)
Definition stub_xy (modelId : string) (systemPrompt : option string)
    (userContent : string) (sideContext : option string) : Stream :=
  if String.eqb modelId "provX:m1"
  then {| chunks := ["X"]; failure := None |}
  else {| chunks := ["Y"]; failure := None |}.

(** Answers "X" for model [m1] and fails for any other. *)
Definition stub_failing (modelId : string) (systemPrompt : option string)
    (userContent : string) (sideContext : option string) : Stream :=
  if String.eqb modelId "provX:m1"
  then {| chunks := ["X"]; failure := None |}
  else {| chunks := ["Y"];
          failure := Some {| provider := "provX"; cause := "boom" |} |}.

(** The branch declared last finishes first; the one declared first does. *)
Definition last_first (stage : nat) (inflight : list nat) : nat :=
  length inflight - 1.
Definition first_first (stage : nat) (inflight : list nat) : nat := 0.

Definition is_delta (e : OutEvent) : bool :=
  match e with delta _ => true | _ => false end.

End Zflow.

(** ** Lines and blocks of a stream text *)

Module Framing.
Import Js Host Sse.

(** The lines that [parseEventBlock] reads as an [event:] header and as a
    [data:] line. *)
Definition event_header (raw : jstring) : bool :=
  startsWith (js "event:") (trimEnd raw).

Definition data_line (raw : jstring) : bool :=
  startsWith (js "data:") (trimEnd raw).

(** Two lines are the same line, or are both [event:] headers. *)
Definition same_line (l1 l2 : jstring) : Prop :=
  l1 = l2 ∨ (event_header l1 = true ∧ event_header l2 = true).

(** Two stream texts differ only in their [event:] header lines: they have
    the same lines, one by one, except that a header may stand for
    another header. *)
Definition differ_in_event_headers (s1 s2 : jstring) : Prop :=
  Forall2 same_line (split nl s1) (split nl s2).

(** A line holds no newline. *)
Abbreviation nlfree := (λ l : jstring, 10%N ∉ l).

(** The lines [l0 :: ls] of a text, gathered into the blocks that the
    blank-line separator delimits. *)
Fixpoint blocks_of_lines (l0 : jstring) (ls : list jstring)
  : list (list jstring) :=
  match ls with
  | [] => [[l0]]
  | l1 :: ls' =>
      if is_empty l1 then
        match ls' with
        | [] => [[l0; l1]]
        | l2 :: ls'' => [l0] :: blocks_of_lines l2 ls''
        end
      else
        match blocks_of_lines l1 ls' with
        | b :: bs => (l0 :: b) :: bs
        | [] => [[l0]]
        end
  end.

(** The text begins with a newline. *)
Definition starts_with_nl (t : jstring) : bool :=
  match t with
  | c :: _ => (10 =? c)%N
  | [] => false
  end.

(** The messages of the typed union as they appear to the page. *)
Definition deltas (texts : list jstring) : list JsonValue :=
  (λ t, repr (MsgDelta t)) <$> texts.

End Framing.

(** ** Reading an event block and rendering a message *)

Module SseView.
Import Js Host Sse Framing.

(** What a [data:] line adds to [data], and the name an [event:] header
    gives. *)
Definition data_payload (raw : jstring) : jstring :=
  trim (slice (length (js "data:")) (trimEnd raw)).

Definition event_name (raw : jstring) : jstring :=
  trim (slice (length (js "event:")) (trimEnd raw)).

(** What the Flows page appends for a message of the declared type. *)
Definition render (m : SseMessage) : jstring :=
  match m with
  | MsgDelta text => text
  | MsgError message => nl ++ js "Error: " ++ message ++ nl
  | _ => []
  end.

Section WithPlatform.
Context `{Platform}.


End WithPlatform.
End SseView.

(** ** The Flows page: [load] *)

Module FlowsLoad.
Import Js Host Sse FlowsPage.

(** The pieces of component state that [load] writes. A value is what the
    setter was given: [None] is [undefined]. *)
Record Editor : Type := {
  selectedId : option JsonValue;
  name : option JsonValue;
  description : option JsonValue;
  code : option JsonValue;
  loading : bool                                              (* busy *)
}.

Definition setSelectedId (v : option JsonValue) (st : Editor) : Editor :=
  {| selectedId := v; name := name st; description := description st;
     code := code st; loading := loading st |}.
Definition setName (v : option JsonValue) (st : Editor) : Editor :=
  {| selectedId := selectedId st; name := v; description := description st;
     code := code st; loading := loading st |}.
Definition setDescription (v : option JsonValue) (st : Editor) : Editor :=
  {| selectedId := selectedId st; name := name st; description := v;
     code := code st; loading := loading st |}.
Definition setCode (v : option JsonValue) (st : Editor) : Editor :=
  {| selectedId := selectedId st; name := name st;
     description := description st; code := v; loading := loading st |}.
Definition setLoading (b : bool) (st : Editor) : Editor :=
  {| selectedId := selectedId st; name := name st;
     description := description st; code := code st; loading := b |}.

(** [x ?? d] *)
Definition nullish_or (x : option JsonValue) (d : JsonValue)
  : option JsonValue :=
  match x with
  | None | Some JNull => Some d
  | Some v => Some v
  end.

(** [x.k] where [x] may be [undefined]; the names read by [load] ([flow],
    [id], [name], [description], [code]) are defined by no prototype of a
    JSON value. *)
Definition get_opt (x : option JsonValue) (k : jstring)
  : completion (option JsonValue) :=
  match x with
  | None => Throw TypeError
  | Some v => get v k
  end.

Section WithPlatform.
Context `{Platform}.

(** [await res.json()]: the whole body text through [JSON.parse]. *)
Definition json (res : Response) : completion JsonValue :=
  JSON_parse (concat (default [] (body res))).

(** The [try] block of [load], statement by statement: the state reached,
    and whether an exception ended it. *)
Definition load_body (res : Response) (st : Editor)
  : Editor * completion () :=
  match json res with
  | Throw e => (st, Throw e)
  | Normal data =>
      match get data (js "flow") with
      | Throw e => (st, Throw e)
      | Normal f =>
          match get_opt f (js "id") with
          | Throw e => (st, Throw e)
          | Normal id =>
              let st := setSelectedId id st in
              match get_opt f (js "name") with
              | Throw e => (st, Throw e)
              | Normal nm =>
                  let st := setName nm st in
                  match get_opt f (js "description") with
                  | Throw e => (st, Throw e)
                  | Normal d =>
                      let st := setDescription (nullish_or d (JString [])) st in
                      match get_opt f (js "code") with
                      | Throw e => (st, Throw e)
                      | Normal c =>
                          (setCode (nullish_or c (JString [])) st, Normal ())
                      end
                  end
              end
          end
      end
  end.

Definition load (res : Response) (st : Editor) : Editor * completion () :=
  let st := setLoading true st in
  let '(st, c) := load_body res st in
  (setLoading false st, c).                                   (* finally *)

End WithPlatform.
End FlowsLoad.

(** ** The chat page: history, routing and [send] in Zflow mode *)

Module ChatSend.
Import Js Host Sse FlowsPage ChatPage.

Record Turn : Type := { turn_user : jstring; turn_assistant : jstring }.

(** One turn of the loop of [historyTurns]: the turns pushed so far and
    [lastUser]. *)
Definition history_step (acc : list Turn * jstring) (m : ChatMessage)
  : list Turn * jstring :=
  let '(turns, lastUser) := acc in
  let lastUser :=
    match role m with user => content m | assistant => lastUser end in
  match role m with
  | assistant =>
      (turns ++ [{| turn_user := lastUser; turn_assistant := content m |}], [])
  | user => (turns, lastUser)
  end.

Definition historyTurns (messages : list ChatMessage) : list Turn :=
  (foldl history_step ([], []) messages).1.

Definition is_assistant (m : ChatMessage) : bool :=
  match role m with assistant => true | user => false end.

(** The messages of a conversation of completed turns. *)
Definition turn_messages (t : Turn) : list ChatMessage :=
  [{| role := user; content := turn_user t; model := None |};
   {| role := assistant; content := turn_assistant t; model := None |}].

(** What a message of the declared type makes of the content of the
    assistant message being written. *)
Definition chat_content (shown : jstring) (m : SseMessage) : jstring :=
  match m with
  | MsgDelta text => shown ++ text
  | MsgError message => js "Error: " ++ message
  | _ => shown
  end.

Inductive Mode : Type := chat | auto | zflow.

Record Routing : Type := {
  classifier_model : jstring;
  labels : list jstring;
  output_models : list jstring;
  custom_classifier_prompt : jstring
}.

(** [a || b] on strings: the empty string is falsy. *)
Definition or_else (a b : jstring) : jstring := if is_empty a then b else a.

(** [text.split(sep).map((s) => s.trim()).filter(Boolean)] *)
Definition trimmed_parts (sep text : jstring) : list jstring :=
  List.filter (λ s, negb (is_empty s)) (trim <$> split sep text).

(** The [routing] field of the request body; [None] is [undefined]. *)
Definition routing_of (mode : Mode) (autoRoutingAdvanced : bool)
    (labelsText outputModelsText classifierModel model
     customClassifierPrompt : jstring) : option Routing :=
  match mode with
  | auto =>
      if autoRoutingAdvanced then
        let labels := trimmed_parts (js ",") labelsText in
        let outputModels := trimmed_parts nl outputModelsText in
        Some {| classifier_model := or_else classifierModel model;
                labels := match labels with
                          | [] => [js "nonlogical"; js "logical"]
                          | _ => labels
                          end;
                output_models := match outputModels with
                                 | [] => [model; model]
                                 | _ => outputModels
                                 end;
                custom_classifier_prompt := or_else customClassifierPrompt [] |}
      else
        Some {| classifier_model := model;
                labels := [js "nonlogical"; js "logical"];
                output_models := [model; model];
                custom_classifier_prompt := [] |}
  | _ => None
  end.

(** The state that [send] reads and writes in Zflow mode. *)
Record ChatState : Type := {
  messages : list ChatMessage;
  input : jstring;
  sending : bool                                              (* busy *)
}.

Definition user_message (text : jstring) : ChatMessage :=
  {| role := user; content := text; model := None |}.
Definition assistant_message (text : jstring) : ChatMessage :=
  {| role := assistant; content := text; model := None |}.

(** The digits of a number, as a template literal prints an integer. *)
Fixpoint uint_digits (u : Decimal.uint) : jstring :=
  match u with
  | Decimal.Nil => []
  | Decimal.D0 u => 48%N :: uint_digits u
  | Decimal.D1 u => 49%N :: uint_digits u
  | Decimal.D2 u => 50%N :: uint_digits u
  | Decimal.D3 u => 51%N :: uint_digits u
  | Decimal.D4 u => 52%N :: uint_digits u
  | Decimal.D5 u => 53%N :: uint_digits u
  | Decimal.D6 u => 54%N :: uint_digits u
  | Decimal.D7 u => 55%N :: uint_digits u
  | Decimal.D8 u => 56%N :: uint_digits u
  | Decimal.D9 u => 57%N :: uint_digits u
  end.

Section WithPlatform.
Context `{Platform}.

(** The message of an exception of the platform ([TypeError],
    [SyntaxError]), whose wording is the engine's. *)
Variable engine_message : Exn → jstring.

(** [e.message]: for the error of [fetchSse] the text of its template
    literal. *)
Definition message_of (e : Exn) : jstring :=
  match e with
  | HttpError status => js "HTTP " ++ uint_digits (N.to_uint status)
  | _ => engine_message e
  end.

(** [for await (const evt of fetchSse(...))] with the loop body of the
    [zflow] branch. *)
Fixpoint for_await_zflow (msgs : list JsonValue) (prev : list ChatMessage)
  : list ChatMessage * completion () :=
  match msgs with
  | [] => (prev, Normal ())
  | evt :: msgs' =>
      match on_evt evt prev with
      | Normal next => for_await_zflow msgs' next
      | Throw e => (prev, Throw e)
      end
  end.

(** [send] when [mode] is [zflow]. *)
Definition send (res : Response) (st : ChatState) : ChatState :=
  let text := trim (input st) in
  if is_empty text || sending st then st
  else
    let prev := messages st ++ [user_message text; assistant_message []] in
    let '(yielded, fin) := fetchSse res in
    let '(prev, c) := for_await_zflow yielded prev in
    let c := match c with Normal _ => fin | Throw e => Throw e end in
    let prev :=
      match c with
      | Normal _ => prev
      | Throw e =>                                             (* catch *)
          prev ++ [assistant_message (js "Error: " ++ message_of e)]
      end in
    {| messages := prev; input := []; sending := false |}.    (* finally *)

End WithPlatform.
End ChatSend.

(** ** The values on which the updaters of the pages compute *)

Module PageValues.
Import Js Host Sse FlowsPage.

Section WithPlatform.
Context `{Platform}.

(** [p + x] and a template literal with [x] give a string. *)
Definition prints (x : option JsonValue) : bool :=
  match ToString_opt x with
  | Normal _ => true
  | Throw _ => false
  end.

(** No updater that the loop of either page queues for [evt] throws: the
    [text] of a [delta] and the [message] of an [error] turn into strings.
    A value that is not an object queues no updater. *)
Definition updaters_total (evt : JsonValue) : bool :=
  match evt with
  | JObject members =>
      let ty := get_own (js "type") members in
      (if is_string ty (js "delta")
       then prints (get_own (js "text") members) else true)
      && (if is_string ty (js "error")
          then prints (get_own (js "message") members) else true)
  | _ => true
  end.

End WithPlatform.
End PageValues.

(** ** web/src/app/providers.tsx *)

Module Providers.
Import Js.
















End Providers.

(** * Properties *)

(** ** Splitting and joining *)

Module JsFacts.
Import Js.

Lemma startsWith_true (p s : jstring) :
  startsWith p s = true → s = p ++ drop (length p) s.
Proof.
  revert s. induction p as [|a p IH]; intros [|b s]; simpl; try done.
  intros [Hab Hp]%andb_prop. apply N.eqb_eq in Hab as ->.
  f_equal. by apply IH.
Qed.

Lemma startsWith_app (p t : jstring) : startsWith p (p ++ t) = true.
Proof.
  induction p as [|a p IH]; simpl; [done|].
  by rewrite N.eqb_refl, IH.
Qed.

Lemma startsWith_long (p s t : jstring) :
  length p ≤ length s → startsWith p (s ++ t) = startsWith p s.
Proof.
  revert s. induction p as [|a p IH]; intros [|b s]; simpl; try done; try lia.
  intros Hlen. rewrite IH; [done | lia].
Qed.

Lemma cut_Some (sep s a b : jstring) :
  cut sep s = Some (a, b) → s = a ++ sep ++ b.
Proof.
  revert a b. induction s as [|c s IH]; intros a b; simpl.
  - destruct (startsWith sep []) eqn:Hp; [|done].
    intros [= <- <-]. by apply startsWith_true in Hp.
  - destruct (startsWith sep (c :: s)) eqn:Hp.
    + intros [= <- <-]. by apply startsWith_true in Hp.
    + destruct (cut sep s) as [[a' b']|] eqn:Hc; [|done].
      intros [= <- <-]. simpl. f_equal. by apply IH.
Qed.

Lemma cut_None (sep s : jstring) : cut sep s = None → ¬ occurs sep s.
Proof.
  induction s as [|c s IH]; simpl.
  - destruct (startsWith sep []) eqn:Hp; [done|].
    intros _ (a & b & Hs). symmetry in Hs.
    apply app_eq_nil in Hs as [-> [-> ->]%app_eq_nil]. done.
  - destruct (startsWith sep (c :: s)) eqn:Hp; [done|].
    destruct (cut sep s) as [[a' b']|] eqn:Hc; [done|].
    intros _ (a & b & Hs). destruct a as [|c' a]; simpl in Hs.
    + rewrite Hs, startsWith_app in Hp. done.
    + injection Hs as -> ->. apply IH; [done|]. by exists a, b.
Qed.

Lemma cut_shorter (sep s a b : jstring) :
  sep ≠ [] → cut sep s = Some (a, b) → length b < length s.
Proof.
  intros Hsep ->%cut_Some. rewrite !length_app.
  destruct sep; [done|]. simpl. lia.
Qed.

Lemma cut_app (sep s t a b : jstring) :
  cut sep s = Some (a, b) → cut sep (s ++ t) = Some (a, b ++ t).
Proof.
  revert a b. induction s as [|c s IH]; intros a b; simpl.
  - destruct (startsWith sep []) eqn:Hp; [|done].
    intros [= <- <-]. destruct sep; [|done]. simpl.
    destruct t; by simpl.
  - destruct (startsWith sep (c :: s)) eqn:Hp.
    + intros [= <- <-].
      pose proof (startsWith_true _ _ Hp) as Hs.
      assert (length sep ≤ length (c :: s)) as Hlen.
      { rewrite Hs, length_app. lia. }
      change (c :: s ++ t) with ((c :: s) ++ t).
      rewrite startsWith_long, Hp by done.
      by rewrite drop_app_le.
    + destruct (cut sep s) as [[a' b']|] eqn:Hc; [|done].
      intros [= <- <-].
      assert (length sep ≤ length (c :: s)) as Hlen.
      { apply cut_Some in Hc. rewrite Hc. simpl. rewrite !length_app. lia. }
      change (c :: s ++ t) with ((c :: s) ++ t).
      rewrite startsWith_long, Hp by done.
      by rewrite (IH a' b').
Qed.

Lemma split_from_enough (sep : jstring) (n m : nat) (s : jstring) :
  sep ≠ [] → length s ≤ n → length s ≤ m →
  split_from n sep s = split_from m sep s.
Proof.
  intros Hsep. revert m s. induction n as [|n IH]; intros m s Hn Hm.
  - destruct s; [|simpl in Hn; lia].
    destruct m; cbn [split_from];
      destruct (cut sep []) as [[a b]|] eqn:Hc; try done.
    apply cut_shorter in Hc; [simpl in Hc; lia | done].
  - destruct m; cbn [split_from];
      destruct (cut sep s) as [[a b]|] eqn:Hc; try done.
    + apply cut_shorter in Hc; [lia | done].
    + f_equal. apply cut_shorter in Hc; [|done]. apply IH; lia.
Qed.

(** The equation of [split] for a separator that is not empty. *)
Lemma split_unfold (sep s : jstring) :
  sep ≠ [] →
  split sep s =
    match cut sep s with
    | None => [s]
    | Some (a, b) => a :: split sep b
    end.
Proof.
  intros Hsep. unfold split. destruct sep as [|c sep]; [done|].
  destruct (length s) as [|n] eqn:Hlen; cbn [split_from];
    destruct (cut (c :: sep) s) as [[a b]|] eqn:Hc; try done.
  - apply cut_shorter in Hc; [lia | done].
  - f_equal. apply cut_shorter in Hc; [|done].
    apply split_from_enough; [done | lia | lia].
Qed.

(** Induction along the cuts of [split]. *)
Lemma split_ind (sep : jstring) (P : jstring → list jstring → Prop) :
  sep ≠ [] →
  (∀ s, cut sep s = None → P s [s]) →
  (∀ s a b, cut sep s = Some (a, b) →
            P b (split sep b) → P s (a :: split sep b)) →
  ∀ s, P s (split sep s).
Proof.
  intros Hsep Hnone Hsome s.
  remember (length s) as n eqn:Hn. revert s Hn.
  induction n as [n IH] using lt_wf_ind. intros s ->.
  rewrite split_unfold by done.
  destruct (cut sep s) as [[a b]|] eqn:Hc; [|by apply Hnone].
  apply Hsome; [done|].
  apply (IH (length b)); [|done]. by eapply cut_shorter.
Qed.

Lemma split_nonempty (sep s : jstring) : split sep s ≠ [] ∨ sep = [].
Proof.
  destruct sep as [|c sep]; [by right|left].
  rewrite split_unfold by done. by destruct (cut _ _) as [[??]|].
Qed.

Lemma join_cons (sep a : jstring) (l : list jstring) :
  l ≠ [] → join sep (a :: l) = a ++ sep ++ join sep l.
Proof. by destruct l. Qed.

(** Joining what [split] gives restores the text. *)
Lemma join_split (sep s : jstring) : sep ≠ [] → join sep (split sep s) = s.
Proof.
  intros Hsep. apply (split_ind sep (λ s l, join sep l = s)); [done|done|].
  clear s. intros s a b Hc IH.
  rewrite join_cons, IH; [by apply cut_Some in Hc|].
  by destruct (split_nonempty sep b).
Qed.

(** [split] ends with a part in which the separator does not occur. *)
Lemma split_last (sep s : jstring) :
  sep ≠ [] →
  ∃ r, last (split sep s) = Some r ∧ cut sep r = None ∧
       split sep s = removelast (split sep s) ++ [r].
Proof.
  intros Hsep.
  apply (split_ind sep (λ s l,
    ∃ r, last l = Some r ∧ cut sep r = None ∧ l = removelast l ++ [r]));
    [done|..]; clear s.
  - intros s Hc. by exists s.
  - intros s a b Hc (r & Hlast & Hr & Hl). exists r.
    destruct (split sep b) as [|x l] eqn:Hb; [done|].
    split_and!; [done|done|]. simpl in *. by rewrite <- Hl.
Qed.

(** Text that arrives later does not change the parts already closed: the
    scan goes on from the open last part. *)
Lemma split_app (sep s t : jstring) :
  sep ≠ [] →
  split sep (s ++ t) =
    removelast (split sep s) ++
    split sep (default [] (last (split sep s)) ++ t).
Proof.
  intros Hsep. revert t.
  apply (split_ind sep (λ s l, ∀ t,
    split sep (s ++ t) =
      removelast l ++ split sep (default [] (last l) ++ t)));
    [done|..]; clear s.
  - by intros s Hc t.
  - intros s a b Hc IH t.
    rewrite (split_unfold sep (s ++ t)), (cut_app _ _ t _ _ Hc) by done.
    rewrite IH.
    destruct (split sep b) as [|x l] eqn:Hb; [|done].
    by destruct (split_nonempty sep b).
Qed.

End JsFacts.

(** ** The SSE client *)

Module SseFacts.
Import Js Host Sse Framing SseView JsFacts.

Lemma nlnl_nonempty : nlnl ≠ [].
Proof. done. Qed.

Lemma nl_nonempty : nl ≠ [].
Proof. done. Qed.

Lemma join_app (sep : jstring) (l1 l2 : list jstring) :
  l1 ≠ [] → l2 ≠ [] →
  join sep (l1 ++ l2) = join sep l1 ++ sep ++ join sep l2.
Proof.
  intros H1 H2. induction l1 as [|a l1 IH]; [done|].
  destruct l1 as [|a' l1].
  - simpl app. by rewrite join_cons.
  - change ((a :: a' :: l1) ++ l2) with (a :: (a' :: l1) ++ l2).
    rewrite !join_cons, IH by done. by rewrite <- !app_assoc.
Qed.

Lemma parseSseLines_parts (buffer : jstring) :
  split nlnl buffer = events (parseSseLines buffer) ++ [rest (parseSseLines buffer)]
  ∧ cut nlnl (rest (parseSseLines buffer)) = None.
Proof.
  destruct (split_last nlnl buffer nlnl_nonempty) as (r & Hlast & Hr & Hs).
  unfold parseSseLines. cbn [events rest]. by rewrite Hlast.
Qed.

Lemma rest_has_no_events (buffer : jstring) :
  cut nlnl buffer = None → parseSseLines buffer = {| events := []; rest := buffer |}.
Proof.
  intros Hc. unfold parseSseLines.
  by rewrite split_unfold, Hc by apply nlnl_nonempty.
Qed.

(** What a longer buffer parses to, from what its beginning parses to. *)
Lemma parseSseLines_app (buffer more : jstring) :
  let r := parseSseLines buffer in
  let r' := parseSseLines (rest r ++ more) in
  parseSseLines (buffer ++ more) =
    {| events := events r ++ events r'; rest := rest r' |}.
Proof.
  intros r r'. unfold parseSseLines at 1.
  rewrite split_app by apply nlnl_nonempty.
  change (removelast (split nlnl buffer)) with (events r).
  change (default [] (last (split nlnl buffer))) with (rest r).
  destruct (parseSseLines_parts (rest r ++ more)) as [Hs _].
  fold r' in Hs. rewrite Hs.
  rewrite app_assoc, last_snoc, removelast_last. done.
Qed.

Lemma seq_gen_skip_l (g : Gen) : seq_gen skip g = g.
Proof. by destruct g. Qed.

Lemma seq_gen_skip_r (g : Gen) : seq_gen g skip = g.
Proof.
  destruct g as [ys [[]|e]]; simpl; [|done]. by rewrite app_nil_r.
Qed.

Lemma seq_gen_assoc (g1 g2 g3 : Gen) :
  seq_gen (seq_gen g1 g2) g3 = seq_gen g1 (seq_gen g2 g3).
Proof.
  destruct g1 as [ys1 [[]|e1]], g2 as [ys2 [[]|e2]]; simpl; try done.
  by rewrite app_assoc.
Qed.

Lemma for_of_app {A} (xs ys : list A) (body : A → Gen) :
  for_of (xs ++ ys) body = seq_gen (for_of xs body) (for_of ys body).
Proof.
  induction xs as [|x xs IH].
  - symmetry. apply seq_gen_skip_l.
  - change (for_of ((x :: xs) ++ ys) body)
      with (seq_gen (body x) (for_of (xs ++ ys) body)).
    change (for_of (x :: xs) body) with (seq_gen (body x) (for_of xs body)).
    by rewrite IH, seq_gen_assoc.
Qed.

Section WithPlatform.
Context `{Platform}.

(** The loop yields what the blocks of the whole text yield. *)
Lemma read_loop_whole (reads : list jstring) (buffer : jstring) :
  cut nlnl buffer = None →
  read_loop buffer reads =
    for_of (events (parseSseLines (buffer ++ concat reads))) on_block.
Proof.
  revert buffer. induction reads as [|value reads IH]; intros buffer Hb.
  - change (concat (@nil jstring)) with (@nil N).
    by rewrite app_nil_r, rest_has_no_events.
  - cbn [read_loop]. rewrite IH by apply parseSseLines_parts.
    change (concat (value :: reads)) with (value ++ concat reads).
    rewrite app_assoc, (parseSseLines_app (buffer ++ value)). cbn [events].
    by rewrite for_of_app.
Qed.

Lemma read_loop_at_once (reads : list jstring) :
  read_loop [] reads = read_loop [] [concat reads].
Proof.
  rewrite !read_loop_whole by done.
  change (concat [concat reads]) with (concat reads ++ []).
  by rewrite app_nil_r.
Qed.

Lemma on_block_normal (block : jstring) : (on_block block).2 = Normal ().
Proof.
  unfold on_block. destruct (parseEventBlock block); [|done].
  by destruct (JSON_parse _).
Qed.

Lemma for_of_normal (blocks : list jstring) :
  (for_of blocks on_block).2 = Normal ().
Proof.
  induction blocks as [|b blocks IH]; [done|].
  unfold for_of in *. simpl. pose proof (on_block_normal b) as Hb.
  destruct (on_block b) as [ys c]. simpl in Hb. subst c. done.
Qed.

Lemma read_loop_normal (reads : list jstring) (buffer : jstring) :
  (read_loop buffer reads).2 = Normal ().
Proof.
  revert buffer. induction reads as [|value reads IH]; intros buffer; [done|].
  simpl. pose proof (for_of_normal (events (parseSseLines (buffer ++ value)))) as Hf.
  destruct (for_of _ _) as [ys c]. simpl in Hf. subst c. simpl. apply IH.
Qed.

Lemma elem_of_seq_gen (v : JsonValue) (g1 g2 : Gen) :
  v ∈ (seq_gen g1 g2).1 → v ∈ g1.1 ∨ v ∈ g2.1.
Proof.
  destruct g1 as [ys [[]|e]]; simpl; [|by left].
  by rewrite elem_of_app.
Qed.

Lemma yielded_by_block (v : JsonValue) (block : jstring) :
  v ∈ (on_block block).1 →
  ∃ parsed, parseEventBlock block = Some parsed
            ∧ JSON_parse (data parsed) = Normal v.
Proof.
  unfold on_block. destruct (parseEventBlock block) as [parsed|]; simpl.
  - destruct (JSON_parse (data parsed)) as [msg|e] eqn:Hp; simpl.
    + intros ->%list_elem_of_singleton. by exists parsed.
    + by intros ?%elem_of_nil.
  - by intros ?%elem_of_nil.
Qed.

Lemma yielded_by_blocks (v : JsonValue) (blocks : list jstring) :
  v ∈ (for_of blocks on_block).1 →
  ∃ block, v ∈ (on_block block).1.
Proof.
  induction blocks as [|b blocks IH]; [by intros ?%elem_of_nil|].
  change (for_of (b :: blocks) on_block)
    with (seq_gen (on_block b) (for_of blocks on_block)).
  intros [Hv|Hv]%elem_of_seq_gen; [by exists b | by apply IH].
Qed.

Lemma yielded_by_loop (v : JsonValue) (reads : list jstring) (buffer : jstring) :
  v ∈ (read_loop buffer reads).1 →
  ∃ block, v ∈ (on_block block).1.
Proof.
  revert buffer. induction reads as [|value reads IH]; intros buffer.
  - by intros ?%elem_of_nil.
  - cbn [read_loop].
    intros [Hv|Hv]%elem_of_seq_gen; [by eapply yielded_by_blocks | by eapply IH].
Qed.

(** C10. [parseSseLines] loses no input: the events joined with the blank
    line, then the blank line and [rest] (or [rest] alone when there is no
    event), are the buffer again; and the blank-line separator does not
    occur in [rest]. *)
Theorem parseSseLines_lossless (buffer : jstring) :
  match events (parseSseLines buffer) with
  | [] => rest (parseSseLines buffer)
  | _ => join nlnl (events (parseSseLines buffer)) ++ nlnl
         ++ rest (parseSseLines buffer)
  end = buffer
  ∧ ¬ occurs nlnl (rest (parseSseLines buffer)).
Proof.
  destruct (parseSseLines_parts buffer) as [Hs Hr].
  split; [|by apply cut_None].
  pose proof (join_split nlnl buffer nlnl_nonempty) as Hj.
  rewrite Hs in Hj.
  destruct (events (parseSseLines buffer)) as [|e es]; [done|].
  by rewrite join_app in Hj.
Qed.

(** C3. The parse does not depend on where the reader cuts the stream:
    whatever the successive reads, [fetchSse] yields the messages, and ends
    the way, it does when the whole text comes in one read. *)
Theorem fetchSse_chunking_independent
    (o : bool) (st : N) (reads : list jstring) :
  fetchSse {| ok := o; status := st; body := Some reads |} =
  fetchSse {| ok := o; status := st; body := Some [concat reads] |}.
Proof.
  unfold fetchSse. cbn [body ok status].
  destruct o; [apply read_loop_at_once | done].
Qed.

(** C9. Malformed blocks are skipped in silence. A block none of whose
    lines is a [data:] line parses to [null] and yields nothing; a block
    whose payload [JSON.parse] rejects yields nothing; in neither case
    does the body of the loop throw, and a response that is [ok] and has a
    body never makes [fetchSse] throw. *)
Theorem fetchSse_skips_malformed :
  (∀ block, Forall (λ raw, data_line raw = false) (split nl block) →
            parseEventBlock block = None ∧ on_block block = skip)
  ∧ (∀ block parsed e,
       parseEventBlock block = Some parsed →
       JSON_parse (data parsed) = Throw e →
       on_block block = skip)
  ∧ (∀ res reads, ok res = true → body res = Some reads →
                  (fetchSse res).2 = Normal ()).
Proof.
  split_and!.
  - intros block Hlines.
    assert (parseEventBlock block = None) as Hnone.
    { unfold parseEventBlock.
      assert (∀ lines acc, Forall (λ raw, data_line raw = false) lines →
                data acc = [] → data (foldl block_line acc lines) = []) as Hfold.
      { induction lines as [|raw lines IH]; intros acc Hl Hacc; [done|].
        inversion Hl as [|? ? Hraw Hl']; subst. simpl. apply IH; [done|].
        unfold block_line. unfold data_line in Hraw.
        destruct (is_empty (trimEnd raw)); [done|].
        destruct (startsWith (js "event:") (trimEnd raw)); [done|].
        by rewrite Hraw. }
      by rewrite Hfold. }
    split; [done|]. unfold on_block. by rewrite Hnone.
  - intros block parsed e Hb Hp. unfold on_block. by rewrite Hb, Hp.
  - intros res reads Hok Hbody. unfold fetchSse. rewrite Hbody, Hok.
    apply read_loop_normal.
Qed.




End WithPlatform.

(** A header-only block, a block with a truncated payload, and a stream
    made of the latter. *)
Lemma fetchSse_skips_malformed_witness :
  @on_block Json.reference (js "event: delta") = skip
  ∧ @on_block Json.reference (jsq "data: {'type':") = skip
  ∧ (@fetchSse Json.reference
       {| ok := true; status := 200;
          body := Some [jsq "data: {'type':" ++ nlnl] |}).2 = Normal ().
Proof.
  destruct (@fetchSse_skips_malformed Json.reference) as (H1 & H2 & H3).
  split_and!.
  - apply H1. vm_compute. repeat constructor.
  - eapply H2; vm_compute; reflexivity.
  - eapply H3; reflexivity.
Defined.



(** The stream of a [delta] cut inside the blank line and inside the
    payload gives the message of the whole text. *)
Example fetchSse_chunked_delta :
  @fetchSse Json.reference
    {| ok := true; status := 200;
       body := Some [js "event: delta" ++ nl; nl ++ jsq "data: {'type':'del";
                     jsq "ta','text':'he'}" ++ nl; nl] |}
  = ([repr (MsgDelta (js "he"))], Normal ()).
Proof. by vm_compute. Qed.

End SseFacts.

(** ** The Flows page *)

Module FlowsPageFacts.
Import Js Host Sse Framing FlowsPage JsFacts SseFacts.

Section WithPlatform.
Context `{Platform}.

Lemma on_evt_delta (text : jstring) (st : State) :
  on_evt (repr (MsgDelta text)) st = Normal (setOutput (λ p, p ++ text) st).
Proof. reflexivity. Qed.

Lemma on_evt_error (message : jstring) (st : State) :
  on_evt (repr (MsgError message)) st =
  Normal (setOutput (λ p, p ++ (nl ++ js "Error: " ++ message ++ nl)) st).
Proof. reflexivity. Qed.

Lemma for_await_app (msgs1 msgs2 : list JsonValue) (st : State) :
  for_await (msgs1 ++ msgs2) st =
  match for_await msgs1 st with
  | (st', Normal _) => for_await msgs2 st'
  | (st', Throw e) => (st', Throw e)
  end.
Proof.
  revert st. induction msgs1 as [|evt msgs1 IH]; intros st; [done|].
  simpl. destruct (on_evt evt st); [apply IH | done].
Qed.

Lemma for_await_deltas (texts : list jstring) (st : State) :
  for_await (deltas texts) st =
  (setOutput (λ p, p ++ concat texts) st, Normal ()).
Proof.
  revert st. induction texts as [|t texts IH]; intros st.
  - destruct st. unfold setOutput. simpl. by rewrite app_nil_r.
  - change (deltas (t :: texts)) with (repr (MsgDelta t) :: deltas texts).
    cbn [for_await]. rewrite on_evt_delta, IH.
    destruct st. unfold setOutput. simpl. by rewrite app_assoc.
Qed.

(** Whatever the event, the page only appends to what it shows. *)
Lemma on_evt_appends (evt : JsonValue) (st st' : State) :
  on_evt evt st = Normal st' → output st `prefix_of` output st'.
Proof.
  unfold on_evt. destruct (get evt (js "type")) as [ty|]; [|done].
  cbn [mbind completion_bind].
  intros Hst.
  assert (∃ s1, (if is_string ty (js "delta") then
                   text ← get evt (js "text");
                   s ← ToString_opt text;
                   Normal (setOutput (λ p, p ++ s) st)
                 else Normal st) = Normal (setOutput (λ p, p ++ s1) st))
    as [s1 Hs1].
  { destruct (is_string ty (js "delta")).
    - destruct (get evt (js "text")) as [text|]; [|done].
      cbn [mbind completion_bind] in *.
      destruct (ToString_opt text) as [s|]; [|done]. by exists s.
    - exists []. destruct st. unfold setOutput. simpl. by rewrite app_nil_r. }
  rewrite Hs1 in Hst. cbn [mbind completion_bind] in Hst.
  destruct (is_string ty (js "error")).
  - destruct (get evt (js "message")) as [message|]; [|done].
    cbn [mbind completion_bind] in Hst.
    destruct (ToString_opt message) as [s|]; [|done].
    injection Hst as <-. simpl. rewrite <- app_assoc. by eexists.
  - injection Hst as <-. simpl. by eexists.
Qed.

(** C8. An [error] does not retract what the [delta] events have shown:
    after any run of deltas the page shows their texts in order after what
    it showed before, and an [error] event then appends its message to
    that output, which stays a prefix of what is shown. *)
Theorem error_keeps_partial_output
    (st : State) (texts : list jstring) (message : jstring) :
  let arrived := for_await (deltas texts) st in
  let failed := for_await (deltas texts ++ [repr (MsgError message)]) st in
  arrived.2 = Normal () ∧ failed.2 = Normal ()
  ∧ output arrived.1 = output st ++ concat texts
  ∧ output failed.1 =
      output arrived.1 ++ (nl ++ js "Error: " ++ message ++ nl)
  ∧ output arrived.1 `prefix_of` output failed.1
  ∧ (∀ res fin,
       fetchSse res = (deltas texts ++ [repr (MsgError message)], fin) →
       output (run res st).1 =
         concat texts ++ (nl ++ js "Error: " ++ message ++ nl)).
Proof.
  intros arrived failed. subst arrived failed.
  rewrite for_await_app, for_await_deltas. cbn [for_await].
  rewrite on_evt_error. cbn [fst snd].
  split_and!; try done.
  - by eexists.
  - intros res fin Hres. unfold run. rewrite Hres.
    rewrite for_await_app, for_await_deltas. cbn [for_await].
    by rewrite on_evt_error.
Qed.

End WithPlatform.

(** Two deltas and an error over two reads: the page shows the text of the
    deltas, then the error. *)
Lemma error_keeps_partial_output_witness :
  output (@run Json.reference
            {| ok := true; status := 200;
               body := Some [jsq "data: {'type':'delta','text':'he'}" ++ nlnl;
                             jsq "data: {'type':'delta','text':'l'}" ++ nlnl
                             ++ jsq "data: {'type':'error','message':'boom'}"
                             ++ nlnl] |}
            {| output := js "stale"; busy := false |}).1
  = js "hel" ++ nl ++ js "Error: boom" ++ nl.
Proof.
  destruct (@error_keeps_partial_output Json.reference
              {| output := js "stale"; busy := false |}
              [js "he"; js "l"] (js "boom")) as (_ & _ & _ & _ & _ & Hrun).
  erewrite Hrun; [reflexivity|]. vm_compute. reflexivity.
Defined.

(** The chat page, unlike the Flows page, shows the error in place of
    what the assistant message held. *)
Lemma ChatPage_error_replaces `{Platform}
    (prev : list ChatPage.ChatMessage) (shown message : jstring)
    (m : option jstring) :
  ChatPage.on_evt (repr (MsgError message))
    (prev ++ [{| ChatPage.role := ChatPage.assistant;
                 ChatPage.content := shown; ChatPage.model := m |}])
  = Normal
      (prev ++ [{| ChatPage.role := ChatPage.assistant;
                   ChatPage.content := js "Error: " ++ message;
                   ChatPage.model := m |}]).
Proof.
  unfold ChatPage.on_evt, ChatPage.update_last_assistant.
  cbn [repr get mbind completion_bind].
  change (is_string _ (js "delta")) with false.
  change (is_string _ (js "error")) with true. cbn iota.
  rewrite reverse_snoc. cbn [ChatPage.update_first_assistant ChatPage.role].
  change (get_own (js "message") _) with (Some (JString message)).
  cbn [mbind completion_bind ToString_opt ToString ChatPage.model ChatPage.role].
  by rewrite reverse_cons, reverse_involutive.
Qed.

End FlowsPageFacts.

(** ** Lines, blocks and the [event:] header *)

Module FramingFacts.
Import Js Host Sse Framing FlowsPage JsFacts SseFacts.

Lemma cut_single_none (c : N) (l : jstring) : c ∉ l → cut [c] l = None.
Proof.
  induction l as [|x l IH]; [done|].
  intros [Hx Hl]%not_elem_of_cons. cbn [cut startsWith].
  destruct (N.eqb_spec c x) as [->|_]; [done|]. cbn [andb].
  by rewrite IH.
Qed.

Lemma cut_single_here (c : N) (l t : jstring) :
  c ∉ l → cut [c] (l ++ c :: t) = Some (l, t).
Proof.
  induction l as [|x l IH].
  - intros _. cbn [app cut startsWith]. by rewrite N.eqb_refl.
  - intros [Hx Hl]%not_elem_of_cons. cbn [app cut startsWith].
    destruct (N.eqb_spec c x) as [->|_]; [done|]. cbn [andb].
    by rewrite IH.
Qed.

Lemma cut_single_Some (c : N) (s a b : jstring) :
  cut [c] s = Some (a, b) → c ∉ a.
Proof.
  revert a b. induction s as [|x s IH]; intros a b; [done|].
  cbn [cut startsWith].
  destruct (N.eqb_spec c x) as [->|Hx]; cbn [andb].
  - intros [= <- _]. apply not_elem_of_nil.
  - destruct (cut [c] s) as [[a' b']|]; [|done].
    intros [= <- _]. apply not_elem_of_cons.
    split; [done | by apply (IH a' b')].
Qed.

Lemma cut_single_None (c : N) (s : jstring) : cut [c] s = None → c ∉ s.
Proof.
  intros Hc%cut_None Hin. apply Hc.
  apply list_elem_of_split in Hin as (a & b & ->). by exists a, b.
Qed.

(** The lines of a text hold no newline, and a text is its lines joined. *)
Lemma lines_nlfree (s : jstring) : Forall nlfree (split nl s).
Proof.
  apply (split_ind nl (λ _ l, Forall nlfree l)); [done|..].
  - intros s' Hc. constructor; [by apply cut_single_None | done].
  - intros s' a b Hc IH. constructor; [by eapply cut_single_Some | done].
Qed.

Lemma lines_of_join (l0 : jstring) (ls : list jstring) :
  Forall nlfree (l0 :: ls) → split nl (join nl (l0 :: ls)) = l0 :: ls.
Proof.
  unfold nl. revert l0. induction ls as [|l1 ls IH]; intros l0 Hfree.
  - inversion Hfree; subst. cbn [join].
    by rewrite split_unfold, cut_single_none.
  - inversion Hfree as [|? ? H0 Hfree']; subst.
    rewrite join_cons by done. cbn [app].
    rewrite split_unfold, cut_single_here by done.
    by rewrite IH.
Qed.

(** Cutting at the blank line, in terms of lines. *)
Lemma cut_nlnl_blank (l b : jstring) :
  nlfree l → cut nlnl (l ++ 10%N :: 10%N :: b) = Some (l, b).
Proof.
  induction l as [|x l IH].
  - intros _. reflexivity.
  - intros [Hx Hl]%not_elem_of_cons. unfold nlnl in *. cbn [app cut startsWith].
    destruct (N.eqb_spec 10 x) as [?|_]; [congruence|]. cbn [andb].
    by rewrite IH.
Qed.

Lemma cut_nlnl_line (l t : jstring) :
  nlfree l → starts_with_nl t = false →
  cut nlnl (l ++ 10%N :: t) =
    match cut nlnl t with
    | Some (a, b) => Some (l ++ 10%N :: a, b)
    | None => None
    end.
Proof.
  intros Hl Ht. induction l as [|x l IH].
  - unfold nlnl. cbn [app]. cbn [cut startsWith]. rewrite N.eqb_refl. cbn [andb].
    destruct t as [|y t]; [done|]. cbn [starts_with_nl] in Ht.
    cbn [startsWith]. rewrite Ht. cbn [andb]. done.
  - apply not_elem_of_cons in Hl as [Hx Hl]. unfold nlnl in *.
    cbn [app cut startsWith].
    destruct (N.eqb_spec 10 x) as [?|_]; [congruence|]. cbn [andb].
    rewrite IH by done. by destruct (cut [10%N; 10%N] t) as [[a b]|].
Qed.

Lemma cut_nlnl_none (l : jstring) : nlfree l → cut nlnl l = None.
Proof.
  induction l as [|x l IH]; [done|].
  intros [Hx Hl]%not_elem_of_cons. unfold nlnl in *. cbn [cut startsWith].
  destruct (N.eqb_spec 10 x) as [?|_]; [congruence|]. cbn [andb].
  by rewrite IH.
Qed.

Lemma split_nlnl_line (l t : jstring) :
  nlfree l → starts_with_nl t = false →
  split nlnl (l ++ 10%N :: t) =
    match split nlnl t with
    | hd :: tl => (l ++ 10%N :: hd) :: tl
    | [] => []
    end.
Proof.
  intros Hl Ht.
  rewrite (split_unfold nlnl (l ++ _)), (split_unfold nlnl t), cut_nlnl_line
    by done.
  by destruct (cut nlnl t) as [[a b]|].
Qed.

Lemma blocks_of_lines_nonempty (l0 : jstring) (ls : list jstring) :
  blocks_of_lines l0 ls ≠ [].
Proof.
  destruct ls as [|l1 ls]; [done|]. cbn [blocks_of_lines].
  destruct (is_empty l1).
  - by destruct ls.
  - by destruct (blocks_of_lines l1 ls).
Qed.

(** Induction along the four cases of [blocks_of_lines]. *)
Lemma blocks_ind
    (P : jstring → list jstring → list (list jstring) → Prop) :
  (∀ l0, P l0 [] [[l0]]) →
  (∀ l0, P l0 [[]] [[l0; []]]) →
  (∀ l0 l2 ls, P l2 ls (blocks_of_lines l2 ls) →
               P l0 ([] :: l2 :: ls) ([l0] :: blocks_of_lines l2 ls)) →
  (∀ l0 l1 ls b bs, is_empty l1 = false →
                    blocks_of_lines l1 ls = b :: bs →
                    P l1 ls (b :: bs) → P l0 (l1 :: ls) ((l0 :: b) :: bs)) →
  ∀ ls l0, P l0 ls (blocks_of_lines l0 ls).
Proof.
  intros H1 H2 H3 H4 ls.
  remember (length ls) as n eqn:Hn. revert ls Hn.
  induction n as [n IH] using lt_wf_ind. intros ls -> l0.
  destruct ls as [|l1 ls]; [apply H1|].
  cbn [blocks_of_lines]. destruct (is_empty l1) eqn:He.
  - destruct l1; [|done]. destruct ls as [|l2 ls]; [apply H2|].
    apply H3. eapply IH; [|done]. simpl; lia.
  - destruct (blocks_of_lines l1 ls) as [|b bs] eqn:Hb;
      [by apply blocks_of_lines_nonempty in Hb|].
    apply H4; [done..|]. rewrite <- Hb. eapply IH; [|done]. simpl; lia.
Qed.

(** Every block holds at least one line, and only lines of the text. *)
Lemma blocks_shape (ls : list jstring) (l0 : jstring) :
  Forall (λ b, b ≠ [] ∧ ∀ l, l ∈ b → l ∈ l0 :: ls) (blocks_of_lines l0 ls).
Proof.
  revert ls l0.
  apply (blocks_ind (λ l0 ls B,
    Forall (λ b, b ≠ [] ∧ ∀ l, l ∈ b → l ∈ l0 :: ls) B)).
  - intros l0. constructor; [|constructor]. by split.
  - intros l0. constructor; [|constructor]. by split.
  - intros l0 l2 ls IH. constructor.
    + split; [done|]. intros l ->%list_elem_of_singleton. apply list_elem_of_here.
    + eapply Forall_impl; [exact IH|]. intros b [Hb Hin]. split; [done|].
      intros l Hl. do 2 apply list_elem_of_further. by apply Hin.
  - intros l0 l1 ls b bs He Hb IH.
    inversion IH as [|? ? [Hb1 Hb2] Hbs]; subst. constructor.
    + split; [done|]. intros l [->|Hl]%elem_of_cons;
        [apply list_elem_of_here | apply list_elem_of_further; by apply Hb2].
    + eapply Forall_impl; [exact Hbs|]. intros b' [Hb' Hin]. split; [done|].
      intros l Hl. apply list_elem_of_further. by apply Hin.
Qed.

Lemma join_starts (l1 : jstring) (ls : list jstring) :
  nlfree l1 → is_empty l1 = false → starts_with_nl (join nl (l1 :: ls)) = false.
Proof.
  destruct l1 as [|y l1]; [done|].
  intros [Hy _]%not_elem_of_cons _.
  destruct ls; cbn [join app starts_with_nl]; by apply N.eqb_neq.
Qed.

(** The parts that the blank line separates are the blocks of lines. *)
Lemma split_blocks (ls : list jstring) (l0 : jstring) :
  Forall nlfree (l0 :: ls) →
  split nlnl (join nl (l0 :: ls)) = join nl <$> blocks_of_lines l0 ls.
Proof.
  revert ls l0.
  apply (blocks_ind (λ l0 ls B,
    Forall nlfree (l0 :: ls) →
    split nlnl (join nl (l0 :: ls)) = join nl <$> B)).
  - intros l0 Hfree. inversion Hfree; subst. cbn [join fmap list_fmap].
    by rewrite split_unfold, cut_nlnl_none.
  - intros l0 Hfree. inversion Hfree; subst. cbn [fmap list_fmap].
    change (join nl [l0; []]) with (l0 ++ 10%N :: []).
    by rewrite split_nlnl_line.
  - intros l0 l2 ls IH Hfree.
    inversion Hfree as [|? ? H0 Hfree']; subst.
    inversion Hfree' as [|? ? _ Hfree'']; subst.
    change (join nl (l0 :: [] :: l2 :: ls))
      with (l0 ++ 10%N :: 10%N :: join nl (l2 :: ls)).
    rewrite split_unfold, cut_nlnl_blank by done.
    by rewrite IH.
  - intros l0 l1 ls b bs He Hb IH Hfree.
    inversion Hfree as [|? ? H0 Hfree']; subst.
    inversion Hfree' as [|? ? H1 _].
    change (join nl (l0 :: l1 :: ls)) with (l0 ++ 10%N :: join nl (l1 :: ls)).
    rewrite split_nlnl_line by (done || by apply join_starts).
    rewrite IH by done. cbn [fmap list_fmap]. f_equal.
    pose proof (blocks_shape ls l1) as Hshape. rewrite Hb in Hshape.
    inversion Hshape as [|? ? [Hne _] _]; subst.
    by rewrite join_cons.
Qed.

Lemma same_line_empty (l1 l2 : jstring) :
  same_line l1 l2 → is_empty l1 = is_empty l2.
Proof.
  intros [->|[H1 H2]]; [done|]. by destruct l1, l2.
Qed.

(** Texts that differ in headers only have blocks that differ in headers
    only. *)
Lemma blocks_same (ls : list jstring) (l0 : jstring) :
  ∀ l0' ls', Forall2 same_line (l0 :: ls) (l0' :: ls') →
    Forall2 (Forall2 same_line)
            (blocks_of_lines l0 ls) (blocks_of_lines l0' ls').
Proof.
  revert ls l0.
  apply (blocks_ind (λ l0 ls B,
    ∀ l0' ls', Forall2 same_line (l0 :: ls) (l0' :: ls') →
      Forall2 (Forall2 same_line) B (blocks_of_lines l0' ls'))).
  - intros l0 l0' ls' Hrel.
    inversion Hrel as [|? ? ? ? H0 Hnil]; subst. inversion Hnil; subst.
    cbn [blocks_of_lines]. constructor; [|constructor].
    by constructor.
  - intros l0 l0' ls' Hrel.
    inversion Hrel as [|? ? ? ? H0 Hrel1]; subst.
    inversion Hrel1 as [|? l1' ? ? H1 Hnil]; subst. inversion Hnil; subst.
    apply same_line_empty in H1 as He. destruct l1'; [|done].
    cbn [blocks_of_lines is_empty]. constructor; [|constructor].
    by constructor.
  - intros l0 l2 ls IH l0' ls' Hrel.
    inversion Hrel as [|? ? ? ? H0 Hrel1]; subst.
    inversion Hrel1 as [|? l1' ? ? H1 Hrel2]; subst.
    inversion Hrel2 as [|? l2' ? ls'' H2 Hrel3]; subst.
    apply same_line_empty in H1 as He. destruct l1'; [|done].
    cbn [blocks_of_lines is_empty].
    constructor; [by constructor | by apply IH].
  - intros l0 l1 ls b bs He Hb IH l0' ls' Hrel.
    inversion Hrel as [|? ? ? ? H0 Hrel1]; subst.
    inversion Hrel1 as [|? l1' ? ls'' H1 Hrel2]; subst.
    apply same_line_empty in H1 as He'. rewrite He in He'.
    cbn [blocks_of_lines]. rewrite <- He'.
    specialize (IH l1' ls'' Hrel1).
    inversion IH as [|? b' ? bs' Hbb Hbs]; subst.
    constructor; [by constructor | done].
Qed.

Lemma event_header_nonempty (raw : jstring) :
  event_header raw = true → is_empty (trimEnd raw) = false.
Proof. unfold event_header. by destruct (trimEnd raw). Qed.

(** What a line adds to [data] does not depend on [event:] headers. *)
Lemma block_line_data (acc1 acc2 : EventBlock) (l1 l2 : jstring) :
  same_line l1 l2 → data acc1 = data acc2 →
  data (block_line acc1 l1) = data (block_line acc2 l2).
Proof.
  intros [->|[H1 H2]] Hd; unfold block_line.
  - destruct (is_empty _); [done|].
    destruct (startsWith (js "event:") _); [done|].
    destruct (startsWith (js "data:") _); [|done].
    cbn [data]. by rewrite Hd.
  - rewrite !event_header_nonempty by done.
    unfold event_header in *. by rewrite H1, H2.
Qed.

Lemma foldl_block_line_data (b1 b2 : list jstring) (acc1 acc2 : EventBlock) :
  Forall2 same_line b1 b2 → data acc1 = data acc2 →
  data (foldl block_line acc1 b1) = data (foldl block_line acc2 b2).
Proof.
  intros Hrel. revert acc1 acc2.
  induction Hrel as [|l1 l2 b1 b2 Hl Hrel IH]; intros acc1 acc2 Hd; [done|].
  cbn [foldl]. apply IH. by apply block_line_data.
Qed.

Lemma parseEventBlock_same (b1 b2 : list jstring) :
  b1 ≠ [] → Forall nlfree b1 → Forall nlfree b2 → Forall2 same_line b1 b2 →
  data <$> parseEventBlock (join nl b1) = data <$> parseEventBlock (join nl b2).
Proof.
  intros Hne Hf1 Hf2 Hrel.
  destruct Hrel as [|l1 l2 b1 b2 Hl Hrel]; [done|].
  unfold parseEventBlock. rewrite !lines_of_join by done.
  pose proof (foldl_block_line_data (l1 :: b1) (l2 :: b2)
                {| event := js "message"; data := [] |}
                {| event := js "message"; data := [] |}) as Hd.
  rewrite Hd by (done || by constructor).
  destruct (is_empty _); [done|].
  cbn [fmap option_fmap option_map]. f_equal.
  apply Hd; [by constructor | done].
Qed.

Section WithPlatform.
Context `{Platform}.

(** [on_block] reads nothing of a block but its [data]. *)
Lemma on_block_data (block1 block2 : jstring) :
  data <$> parseEventBlock block1 = data <$> parseEventBlock block2 →
  on_block block1 = on_block block2.
Proof.
  unfold on_block.
  destruct (parseEventBlock block1) as [p1|], (parseEventBlock block2) as [p2|];
    try done.
  cbn [fmap option_fmap option_map]. by intros [= ->].
Qed.

Lemma Forall2_removelast {A B} (R : A → B → Prop) (l : list A) (k : list B) :
  Forall2 R l k → Forall2 R (removelast l) (removelast k).
Proof.
  induction 1 as [|x y l k Hxy Hlk IH]; [constructor|].
  destruct Hlk; [constructor|]. cbn [removelast] in *. by constructor.
Qed.

Lemma for_of_same (blocks1 blocks2 : list jstring) :
  Forall2 (λ b1 b2, on_block b1 = on_block b2) blocks1 blocks2 →
  for_of blocks1 on_block = for_of blocks2 on_block.
Proof.
  induction 1 as [|b1 b2 l k Hb Hlk IH]; [done|].
  change (for_of (b1 :: l) on_block)
    with (seq_gen (on_block b1) (for_of l on_block)).
  change (for_of (b2 :: k) on_block)
    with (seq_gen (on_block b2) (for_of k on_block)).
  by rewrite Hb, IH.
Qed.

Lemma blocks_yield_same (B1 B2 : list (list jstring)) :
  Forall (λ b, b ≠ [] ∧ Forall nlfree b) B1 →
  Forall (λ b, Forall nlfree b) B2 →
  Forall2 (Forall2 same_line) B1 B2 →
  Forall2 (λ b1 b2, on_block b1 = on_block b2)
          (join nl <$> B1) (join nl <$> B2).
Proof.
  intros H1 H2 Hrel. apply Forall2_fmap.
  induction Hrel as [|b1 b2 B1 B2 Hb Hrel IH]; [constructor|].
  inversion H1 as [|? ? [Hne Hf1] H1']; subst.
  inversion H2 as [|? ? Hf2 H2']; subst.
  constructor; [|by apply IH].
  by apply on_block_data, parseEventBlock_same.
Qed.

(** The blocks of two texts that differ in headers only yield the same. *)
Lemma whole_text_same (s1 s2 : jstring) :
  differ_in_event_headers s1 s2 →
  for_of (events (parseSseLines s1)) on_block =
  for_of (events (parseSseLines s2)) on_block.
Proof.
  unfold differ_in_event_headers. intros Hrel.
  pose proof (join_split nl s1 nl_nonempty) as J1.
  pose proof (join_split nl s2 nl_nonempty) as J2.
  pose proof (lines_nlfree s1) as F1.
  pose proof (lines_nlfree s2) as F2.
  destruct (split nl s1) as [|l1 ls1] eqn:E1;
    [by destruct (split_nonempty nl s1)|].
  destruct (split nl s2) as [|l2 ls2] eqn:E2;
    [by destruct (split_nonempty nl s2)|].
  unfold parseSseLines. cbn [events].
  rewrite <- J1, <- J2, !split_blocks by done.
  apply for_of_same, Forall2_removelast, blocks_yield_same.
  - eapply Forall_impl; [apply blocks_shape|]. intros b [Hne Hin].
    split; [done|]. apply Forall_forall. intros l Hl%Hin.
    by eapply Forall_forall in F1.
  - eapply Forall_impl; [apply blocks_shape|]. intros b [Hne Hin].
    apply Forall_forall. intros l Hl%Hin.
    by eapply Forall_forall in F2.
  - by apply blocks_same.
Qed.

(** C2. Dispatch goes by the payload alone. Two streams whose texts differ
    only in their [event:] header lines, however the reader cuts either of
    them, make [fetchSse] yield the same messages and end the same way,
    and leave the Flows page in the same state. *)
Theorem event_header_irrelevant
    (o : bool) (st : N) (reads1 reads2 : list jstring) :
  differ_in_event_headers (concat reads1) (concat reads2) →
  fetchSse {| ok := o; status := st; body := Some reads1 |} =
  fetchSse {| ok := o; status := st; body := Some reads2 |}
  ∧ ∀ page,
      run {| ok := o; status := st; body := Some reads1 |} page =
      run {| ok := o; status := st; body := Some reads2 |} page.
Proof.
  intros Hrel.
  assert (fetchSse {| ok := o; status := st; body := Some reads1 |} =
          fetchSse {| ok := o; status := st; body := Some reads2 |}) as Heq.
  { unfold fetchSse. cbn [body ok status]. destruct o; [|done].
    rewrite !read_loop_whole by done. cbn [app].
    by apply whole_text_same. }
  split; [done|]. intros page. unfold run. by rewrite Heq.
Qed.

End WithPlatform.

(** The same payload under a [delta] header in one read and under an
    [error] header cut inside the blank line. *)
Lemma event_header_irrelevant_witness :
  let reads1 := [js "event: delta" ++ nlnl
                 ++ jsq "data: {'type':'delta','text':'he'}" ++ nlnl] in
  let reads2 := [js "event: error " ++ nl;
                 nl ++ jsq "data: {'type':'delta','text':'he'}" ++ nlnl] in
  @fetchSse Json.reference {| ok := true; status := 200; body := Some reads1 |} =
  @fetchSse Json.reference {| ok := true; status := 200; body := Some reads2 |}.
Proof.
  intros reads1 reads2.
  apply (@event_header_irrelevant Json.reference true 200%N reads1 reads2).
  unfold differ_in_event_headers. vm_compute.
  repeat (constructor; [first [left; reflexivity | right; split; reflexivity]|]).
  constructor.
Defined.

End FramingFacts.

(** ** The Zflow executor *)

Module ZflowFacts.
Import Stdlib.Strings.Ascii.
Import Zflow.

Lemma elem_of_delete_inv {A} (l : list A) (k : nat) (x : A) :
  x ∈ delete k l → x ∈ l.
Proof.
  rewrite delete_take_drop. intros [Hx|Hx]%elem_of_app.
  - rewrite <- (take_drop k l). apply elem_of_app. by left.
  - rewrite <- (take_drop (S k) l). apply elem_of_app. by right.
Qed.

Lemma elem_of_delete_other {A} (l : list A) (k : nat) (i x : A) :
  l !! k = Some i → x ∈ l → x ≠ i → x ∈ delete k l.
Proof.
  intros Hk Hx Hne. rewrite <- (take_drop_middle l k i Hk) in Hx.
  rewrite delete_take_drop.
  apply elem_of_app in Hx as [Hx|Hx]; [apply elem_of_app; by left|].
  apply elem_of_cons in Hx as [->|Hx]; [done|]. apply elem_of_app; by right.
Qed.

Lemma pick_in_range (a : nat) {A} (l : list A) :
  l ≠ [] → is_Some (l !! (a `mod` length l)).
Proof.
  intros Hl. apply lookup_lt_is_Some. apply Nat.mod_upper_bound.
  by destruct l.
Qed.

Section Executor.
Variable invoke : string → option string → string → option string → Stream.
Variable pick : nat → list nat → nat.

(** When every branch in flight succeeds, the stage resolves and every
    slot holds the output of its own branch. *)
Lemma await_resolves (n stage : nat) (streams : list Stream)
    (inflight : list nat) (slots : gmap nat string) :
  length inflight ≤ n →
  (∀ i, i ∈ inflight → ∃ s, streams !! i = Some s ∧ failure s = None) →
  (∀ j s, streams !! j = Some s →
          j ∈ inflight ∨ slots !! j = Some (text_of (chunks s))) →
  ∃ slots',
    await_branches pick n stage streams inflight slots = Resolved slots'
    ∧ ∀ j s, streams !! j = Some s → slots' !! j = Some (text_of (chunks s)).
Proof.
  revert inflight slots.
  induction n as [|n IH]; intros inflight slots Hlen Hok Hslots.
  - exists slots. split; [done|]. intros j s Hj.
    destruct inflight; [|simpl in Hlen; lia].
    destruct (Hslots j s Hj) as [Hin|?]; [|done]. by apply elem_of_nil in Hin.
  - cbn [await_branches].
    destruct (inflight !! (pick stage inflight `mod` length inflight))
      as [i|] eqn:Hk.
    + destruct (Hok i) as (s & Hs & Hfail); [by eapply list_elem_of_lookup_2|].
      rewrite Hs, Hfail. apply IH.
      * rewrite length_delete by done. lia.
      * intros i' Hi'. apply Hok. by eapply elem_of_delete_inv.
      * intros j s' Hj. destruct (decide (j = i)) as [->|Hne].
        -- right. rewrite lookup_insert_eq. congruence.
        -- destruct (Hslots j s' Hj) as [Hin|Hin].
           ++ left. by eapply elem_of_delete_other.
           ++ right. by rewrite lookup_insert_ne.
    + exists slots. split; [done|]. intros j s Hj.
      destruct inflight as [|i0 inflight'].
      * destruct (Hslots j s Hj) as [Hin|?]; [|done]. by apply elem_of_nil in Hin.
      * destruct (pick_in_range (pick stage (i0 :: inflight')) (i0 :: inflight'))
          as [? Hsome]; [done|]. congruence.
Qed.




Lemma run_branches_resolves (stage : nat) (branches : list OperatorCall)
    (buffer : string) :
  Forall (λ c, failure (call_stream invoke c buffer) = None) branches →
  ∃ slots,
    run_branches invoke pick stage branches buffer = Resolved slots
    ∧ merge (length branches) slots =
        String.concat newline (output_of invoke buffer <$> branches).
Proof.
  intros Hok. unfold run_branches.
  set (streams := (λ c, call_stream invoke c buffer) <$> branches).
  destruct (await_resolves (length branches) stage streams
              (seq 0 (length branches)) ∅) as (slots & Hres & Hslots).
  - by rewrite length_seq.
  - intros i [_ Hi]%elem_of_seq. simpl in Hi.
    destruct (lookup_lt_is_Some_2 branches i Hi) as [c Hc].
    exists (call_stream invoke c buffer). split.
    + unfold streams. by rewrite list_lookup_fmap, Hc.
    + rewrite Forall_forall in Hok. apply Hok. by eapply list_elem_of_lookup_2.
  - intros j s Hj. left. apply elem_of_seq. split; [lia|]. simpl.
    apply lookup_lt_Some in Hj. unfold streams in Hj.
    by rewrite length_fmap in Hj.
  - exists slots. split; [done|]. unfold merge. f_equal.
    apply list_eq. intros i. rewrite !list_lookup_fmap.
    destruct (branches !! i) as [c|] eqn:Hc.
    + rewrite lookup_seq_lt by by eapply lookup_lt_Some.
      cbn [fmap option_fmap option_map Nat.add]. f_equal.
      rewrite (Hslots i (call_stream invoke c buffer)); [done|].
      unfold streams. by rewrite list_lookup_fmap, Hc.
    + rewrite lookup_seq_ge by by apply lookup_ge_None.
      done.
Qed.


(** An intermediate stage emits nothing when it resolves and one [error]
    when it fails. *)
Lemma intermediate_stage (stage : nat) (st : Stage) (buffer : string) :
  match run_stage invoke pick false stage st buffer with
  | (evs, Some _) => evs = []
  | (evs, None) => ∃ message, evs = [error message]
  end.
Proof.
  destruct st as [c|bs]; cbn [run_stage].
  - unfold run_call. destruct (failure _); [by eexists | done].
  - unfold run_parallel. destruct (run_branches _ _ _ _ _); [done | by eexists].
Qed.

Lemma is_last_app {A} (l rest : list A) : rest ≠ [] → is_last (l ++ rest) = false.
Proof. by destruct l, rest. Qed.

Lemma run_stages_prefix (pre rest : list Stage) (stage : nat)
    (input buffer : string) :
  rest ≠ [] →
  run_intermediate invoke pick stage pre input = Some buffer →
  run_stages invoke pick stage (pre ++ rest) input =
  run_stages invoke pick (stage + length pre) rest buffer.
Proof.
  intros Hrest. revert stage input.
  induction pre as [|st pre IH]; intros stage input Hpre.
  - injection Hpre as <-. cbn [app length]. by rewrite Nat.add_0_r.
  - cbn [app run_stages run_intermediate length] in *.
    rewrite is_last_app by done.
    pose proof (intermediate_stage stage st input) as Hst.
    destruct (run_stage invoke pick false stage st input) as [evs [b|]];
      [|done].
    subst evs. cbn [app]. rewrite IH by done. f_equal. lia.
Qed.

Lemma run_stages_prefix_fails (pre rest : list Stage) (stage : nat)
    (input : string) :
  rest ≠ [] →
  run_intermediate invoke pick stage pre input = None →
  ∃ message, run_stages invoke pick stage (pre ++ rest) input = [error message].
Proof.
  intros Hrest. revert stage input.
  induction pre as [|st pre IH]; intros stage input Hpre; [done|].
  cbn [app run_stages run_intermediate] in *.
  rewrite is_last_app by done.
  pose proof (intermediate_stage stage st input) as Hst.
  destruct (run_stage invoke pick false stage st input) as [evs [b|]].
  - subst evs. cbn [app]. by apply IH.
  - done.
Qed.

(** C4. A Parallel stage whose branches all succeed hands on their
    outputs joined by a newline in the declared left-to-right order,
    whatever the order in which the scheduler lets the branches finish;
    for two branches the buffer is the output of the first, the newline,
    the output of the second. *)
Theorem parallel_merge_in_declared_order
    (final : bool) (stage : nat) (branches : list OperatorCall)
    (buffer : string) :
  Forall (λ c, failure (call_stream invoke c buffer) = None) branches →
  let merged := String.concat newline (output_of invoke buffer <$> branches) in
  run_parallel invoke pick final stage branches buffer =
    (if final then [delta merged] else [], Some merged)
  ∧ (∀ a b, branches = [a; b] →
       merged = (output_of invoke buffer a ++ newline
                 ++ output_of invoke buffer b)%string).
Proof.
  intros Hok merged. split.
  - unfold run_parallel.
    destruct (run_branches_resolves stage branches buffer Hok)
      as (slots & -> & Hmerge).
    by rewrite Hmerge.
  - intros a b ->. done.
Qed.


(** C7. Only the final stage streams. An intermediate stage emits no
    [delta]; the [delta] events of a run are those of its last stage, run
    on the buffer that the stages before it hand on, and none at all when
    one of those fails; a final OperatorCall emits one [delta] per chunk
    of its invocation, in order. For [i -> A_p1 -> B_p2] the deltas are
    the chunks of [B_p2]. *)
Theorem deltas_only_from_final_stage
    (pre : list Stage) (last : Stage) (input : string) :
  (∀ stage st buffer,
     List.filter is_delta (run_stage invoke pick false stage st buffer).1 = [])
  ∧ List.filter is_delta (run_stages invoke pick 0 (pre ++ [last]) input) =
      match run_intermediate invoke pick 0 pre input with
      | Some buffer =>
          List.filter is_delta
            (run_stage invoke pick true (length pre) last buffer).1
      | None => []
      end
  ∧ (∀ stage c buffer,
       List.filter is_delta
         (run_stage invoke pick true stage (CallStage c) buffer).1
       = delta <$> chunks (call_stream invoke c buffer))
  ∧ (∀ a b,
       List.filter is_delta
         (execute invoke pick (Sequential (Call a) (Call b)) input)
       = match failure (call_stream invoke a input) with
         | None => delta <$> chunks (call_stream invoke b
                                        (output_of invoke input a))
         | Some _ => []
         end).
Proof.
  assert (∀ stage c buffer,
            List.filter is_delta
              (run_stage invoke pick true stage (CallStage c) buffer).1
            = delta <$> chunks (call_stream invoke c buffer)) as Hfinal.
  { intros stage c buffer. cbn [run_stage]. unfold run_call.
    assert (∀ l : list string, List.filter is_delta (delta <$> l) = delta <$> l)
      as Hall.
    { induction l as [|x l IH]; [done|]. cbn. by rewrite IH. }
    destruct (failure _); cbn [fst]; [|apply Hall].
    by rewrite List.filter_app, Hall, app_nil_r. }
  assert (∀ stage st buffer,
            List.filter is_delta (run_stages invoke pick stage [st] buffer) =
            List.filter is_delta
              (run_stage invoke pick true stage st buffer).1) as Hlast.
  { intros stage st buffer. cbn [run_stages is_last].
    destruct (run_stage invoke pick true stage st buffer) as [evs [b|]];
      cbn [fst snd]; [|done].
    rewrite List.filter_app. cbn. by rewrite app_nil_r. }
  split_and!.
  - intros stage st buffer.
    pose proof (intermediate_stage stage st buffer) as Hst.
    destruct (run_stage invoke pick false stage st buffer) as [evs [b|]].
    + by subst evs.
    + by destruct Hst as [m ->].
  - destruct (run_intermediate invoke pick 0 pre input) as [buffer|] eqn:Hpre.
    + rewrite (run_stages_prefix pre _ 0 input buffer) by done.
      cbn [Nat.add]. apply Hlast.
    + by destruct (run_stages_prefix_fails pre [last] 0 input) as [m ->].
  - exact Hfinal.
  - intros a b. unfold execute, output_of.
    cbn [stages app run_stages is_last run_stage]. unfold run_call at 1.
    destruct (failure (call_stream invoke a input)); [done|].
    cbn [app]. specialize (Hfinal 1 b (text_of (chunks (call_stream invoke a input)))).
    cbn [run_stage] in Hfinal.
    destruct (run_call invoke true b _) as [evs [buf|]]; cbn [fst] in Hfinal;
      rewrite <- Hfinal; [|done].
    by rewrite List.filter_app, app_nil_r.
Qed.

End Executor.

(** C6. The kind of a variable is a function of its name alone and every
    name has an answer: one uppercase letter is a Model, a name that
    starts with [p] is a Prompt, a name that starts with [i] is an Input,
    and every other name is refused with [UnknownVariableKind]. *)
Theorem infer_kind_by_name (name : string) :
  (∀ c, name = String c EmptyString → is_uppercase c = true →
        infer_kind name = Ok Model)
  ∧ (∀ rest, name = String "p" rest → infer_kind name = Ok Prompt)
  ∧ (∀ rest, name = String "i" rest → infer_kind name = Ok Input)
  ∧ (one_uppercase_letter name = false →
     starts_with "p" name = false → starts_with "i" name = false →
     infer_kind name = Err UnknownVariableKind)
  ∧ (infer_kind name = Err UnknownVariableKind ∨ ∃ k, infer_kind name = Ok k).
Proof.
  split_and!.
  - intros c -> Hc. unfold infer_kind. cbn [one_uppercase_letter]. by rewrite Hc.
  - intros rest ->. by destruct rest.
  - intros rest ->. by destruct rest.
  - intros H1 H2 H3. unfold infer_kind. by rewrite H1, H2, H3.
  - unfold infer_kind.
    destruct (one_uppercase_letter name); [right; by eexists|].
    destruct (starts_with "p" name); [right; by eexists|].
    destruct (starts_with "i" name); [right; by eexists|]. by left.
Qed.

(** Two branches, the second finishing first, then the first finishing
    first: the same buffer. *)
Lemma parallel_merge_in_declared_order_witness :
  run_parallel stub_xy last_first true 0 [A_p1; B_p2] "q" =
    ([delta ("X" ++ newline ++ "Y")%string], Some ("X" ++ newline ++ "Y")%string)
  ∧ run_parallel stub_xy first_first true 0 [A_p1; B_p2] "q" =
    ([delta ("X" ++ newline ++ "Y")%string], Some ("X" ++ newline ++ "Y")%string).
Proof.
  split.
  - destruct (parallel_merge_in_declared_order stub_xy last_first true 0
                [A_p1; B_p2] "q") as [Hrun _]; [|exact Hrun].
    repeat constructor.
  - destruct (parallel_merge_in_declared_order stub_xy first_first true 0
                [A_p1; B_p2] "q") as [Hrun _]; [|exact Hrun].
    repeat constructor.
Defined.


(** The four names of section 8. *)
Lemma infer_kind_by_name_witness :
  infer_kind "A" = Ok Model ∧ infer_kind "p1" = Ok Prompt
  ∧ infer_kind "i2" = Ok Input ∧ infer_kind "xx" = Err UnknownVariableKind.
Proof.
  split_and!.
  - destruct (infer_kind_by_name "A") as (H1 & _).
    by apply (H1 "A"%char).
  - destruct (infer_kind_by_name "p1") as (_ & H2 & _).
    by apply (H2 "1").
  - destruct (infer_kind_by_name "i2") as (_ & _ & H3 & _).
    by apply (H3 "2").
  - destruct (infer_kind_by_name "xx") as (_ & _ & _ & H4 & _).
    by apply H4.
Defined.

(** Example 1 of section 8. *)
Example execute_single_call :
  execute stub_echo first_first (Call A_p1) "hello"
  = [delta "he"; delta "llo"; done].
Proof. reflexivity. Qed.

(** Example 2 of section 8, with either branch finishing first. *)
Example execute_parallel_final :
  execute stub_xy last_first (Parallel [A_p1; B_p2]) "q"
  = [delta ("X" ++ newline ++ "Y")%string; done]
  ∧ execute stub_xy first_first (Parallel [A_p1; B_p2]) "q"
  = [delta ("X" ++ newline ++ "Y")%string; done].
Proof. split; by vm_compute. Qed.

(** The stage of the two branches when the second fails, the failing
    branch finishing first and then last: the first branch is cancelled
    in both runs, in the second after it has answered. *)
Example run_branches_failing :
  run_branches stub_failing last_first 0 [A_p1; B_p2] "q"
  = Failed 1 {| provider := "provX"; cause := "boom" |} ∅ [0]
  ∧ run_branches stub_failing first_first 0 [A_p1; B_p2] "q"
  = Failed 1 {| provider := "provX"; cause := "boom" |} {[0 := "X"]} [0].
Proof. split; by vm_compute. Qed.

(** A failing branch: the sibling's output is dropped, the run ends with
    the one [error]. *)
Example execute_parallel_failing :
  execute stub_failing last_first
    (Sequential (Parallel [A_p1; B_p2]) (Call A_p1)) "q" = [error "boom"]
  ∧ execute stub_failing first_first
    (Sequential (Parallel [A_p1; B_p2]) (Call A_p1)) "q" = [error "boom"].
Proof. split; by vm_compute. Qed.

End ZflowFacts.

(** ** More on the SSE client *)

Module SseMore.
Import Js Host Sse Framing SseView JsFacts SseFacts FramingFacts.

Lemma cut_not_None (sep s : jstring) : ¬ occurs sep s → cut sep s = None.
Proof.
  intros Hno. destruct (cut sep s) as [[a b]|] eqn:Hc; [|done].
  destruct Hno. exists a, b. by apply cut_Some.
Qed.

(** The cut is at the leftmost occurrence. *)
Lemma cut_leftmost (sep x t : jstring) :
  ∃ a b, cut sep (x ++ sep ++ t) = Some (a, b) ∧ length a ≤ length x.
Proof.
  induction x as [|c x IH].
  - cbn [app]. exists [], (drop (length sep) (sep ++ t)).
    split; [|done]. destruct (sep ++ t) as [|y l] eqn:E.
    + apply app_eq_nil in E as [-> ->]. done.
    + cbn [cut]. rewrite <- E, startsWith_app. done.
  - destruct IH as (a & b & Hc & Hlen). cbn [app cut].
    destruct (startsWith sep (c :: x ++ sep ++ t)).
    + eexists [], _. split; [done | simpl; lia].
    + rewrite Hc. exists (c :: a), b. split; [done | simpl; lia].
Qed.

Lemma cut_before_free (sep s a b : jstring) :
  sep ≠ [] → cut sep s = Some (a, b) → ¬ occurs sep a.
Proof.
  intros Hsep Hc (x & y & ->).
  pose proof (cut_Some _ _ _ _ Hc) as Hs.
  destruct (cut_leftmost sep x (y ++ sep ++ b)) as (a' & b' & Hc' & Hlen).
  rewrite <- !app_assoc in Hs. rewrite <- Hs, Hc in Hc'.
  injection Hc' as <- _. rewrite !length_app in Hlen.
  destruct sep; [done|]. simpl in Hlen. lia.
Qed.

Lemma split_parts_free (sep s : jstring) :
  sep ≠ [] → Forall (λ part, ¬ occurs sep part) (split sep s).
Proof.
  intros Hsep.
  apply (split_ind sep (λ _ l, Forall (λ part, ¬ occurs sep part) l));
    [done|..].
  - intros s' Hc. constructor; [by apply cut_None | done].
  - intros s' a b Hc IH. constructor; [by eapply cut_before_free | done].
Qed.

Lemma cut_cons (sep : jstring) (c : N) (s : jstring) :
  cut sep (c :: s) =
    if startsWith sep (c :: s) then Some ([], drop (length sep) (c :: s))
    else match cut sep s with
         | Some (a, b) => Some (c :: a, b)
         | None => None
         end.
Proof. reflexivity. Qed.

Lemma startsWith_nlnl (c : N) (s : jstring) :
  startsWith nlnl (c :: s) = ((10 =? c)%N && starts_with_nl s).
Proof. destruct s; simpl; [done|]. by rewrite andb_true_r. Qed.

Lemma nlfree_starts (tail : jstring) : nlfree tail → starts_with_nl tail = false.
Proof.
  destruct tail as [|y tail]; [done|].
  intros [Hy _]%not_elem_of_cons. by apply N.eqb_neq.
Qed.

(** A tail without newline cannot close a block. *)
Lemma cut_nlnl_tail (r tail : jstring) :
  cut nlnl r = None → nlfree tail → cut nlnl (r ++ tail) = None.
Proof.
  intros Hr Htail. induction r as [|c r IH].
  - by apply cut_nlnl_none.
  - rewrite cut_cons, startsWith_nlnl in Hr.
    change ((c :: r) ++ tail) with (c :: (r ++ tail)).
    rewrite cut_cons, startsWith_nlnl.
    destruct ((10 =? c)%N && starts_with_nl r) eqn:E; [done|].
    destruct (cut nlnl r) as [[a b]|] eqn:Hcr; [done|].
    rewrite IH by done.
    assert ((10 =? c)%N && starts_with_nl (r ++ tail) = false) as ->; [|done].
    destruct r as [|x r]; [|done].
    cbn [app]. by rewrite nlfree_starts, andb_false_r.
Qed.

Lemma event_not_data (line : jstring) :
  startsWith (js "event:") line = true → startsWith (js "data:") line = false.
Proof.
  destruct line as [|c line]; [done|].
  cbn [js fmap list_fmap String.list_ascii_of_string startsWith].
  intros [Hc _]%andb_prop. apply N.eqb_eq in Hc as <-. done.
Qed.

Lemma default_last_cons {A} (d x : A) (l : list A) :
  default x (last l) = default d (last (x :: l)).
Proof.
  destruct l as [|y l]; [done|]. rewrite last_cons_cons.
  destruct (last (y :: l)) eqn:E; [done|]. by apply last_None in E.
Qed.

(** The fold of [parseEventBlock], read as the data lines and the headers
    of the block. *)
Lemma foldl_block_line (lines : list jstring) (acc : EventBlock) :
  foldl block_line acc lines =
    {| event := default (event acc)
                  (last (event_name <$> List.filter event_header lines));
       data := data acc
               ++ concat (data_payload <$> List.filter data_line lines) |}.
Proof.
  revert acc. induction lines as [|raw lines IH]; intros acc.
  - destruct acc. cbn. by rewrite app_nil_r.
  - cbn [foldl]. rewrite IH. cbn [List.filter].
    unfold block_line, event_header, data_line, event_name, data_payload.
    destruct (trimEnd raw) as [|c line] eqn:Hraw; cbn [is_empty].
    + done.
    + destruct (startsWith (js "event:") (c :: line)) eqn:He.
      * rewrite (event_not_data _ He). cbn [event data fmap list_fmap].
        rewrite ?Hraw. f_equal. apply default_last_cons.
      * destruct (startsWith (js "data:") (c :: line)) eqn:Hd.
        -- cbn [event data fmap list_fmap concat]. rewrite ?Hraw.
           by rewrite app_assoc.
        -- done.
Qed.

Section WithPlatform.
Context `{Platform}.

Lemma read_loop_prefix (reads more : list jstring) (buffer : jstring) :
  (read_loop buffer reads).1 `prefix_of` (read_loop buffer (reads ++ more)).1.
Proof.
  revert buffer. induction reads as [|value reads IH]; intros buffer.
  - apply prefix_nil.
  - cbn [app read_loop].
    pose proof (for_of_normal (events (parseSseLines (buffer ++ value)))) as Hn.
    destruct (for_of _ _) as [ys c]. cbn [snd] in Hn. subst c.
    cbn [seq_gen fst]. apply prefix_app, IH.
Qed.

(** X1. Delivery is incremental: the messages yielded after some reads
    are the beginning of the messages yielded after any further reads; a
    later read never changes or withdraws a message already yielded. *)
Theorem fetchSse_incremental
    (o : bool) (st : N) (reads more : list jstring) :
  (fetchSse {| ok := o; status := st; body := Some reads |}).1
  `prefix_of`
  (fetchSse {| ok := o; status := st; body := Some (reads ++ more) |}).1.
Proof.
  unfold fetchSse. cbn [body ok status].
  destruct o; [apply read_loop_prefix | done].
Qed.

(** X2. The blocks that [parseSseLines] hands on are closed: the blank
    line occurs in none of the events, and parsing [rest] again finds no
    event and gives the same [rest]. *)
Theorem parseSseLines_blocks_closed (buffer : jstring) :
  Forall (λ block, ¬ occurs nlnl block) (events (parseSseLines buffer))
  ∧ parseSseLines (rest (parseSseLines buffer)) =
      {| events := []; rest := rest (parseSseLines buffer) |}.
Proof.
  destruct (parseSseLines_parts buffer) as [Hs Hr].
  split; [|by apply rest_has_no_events].
  pose proof (split_parts_free nlnl buffer nlnl_nonempty) as Hfree.
  rewrite Hs in Hfree. by apply Forall_app in Hfree as [? _].
Qed.

(** X3. What [parseEventBlock] makes of a block: [data] is the payloads
    of the [data:] lines, trimmed, one after the other with nothing
    between; the block is dropped when that is empty; [event] is the
    name on the last [event:] header, or [message] without a header. No
    other line counts. *)
Theorem parseEventBlock_fields (block : jstring) :
  let lines := split nl block in
  let payload := concat (data_payload <$> List.filter data_line lines) in
  parseEventBlock block =
    if is_empty payload then None
    else Some {| event := default (js "message")
                            (last (event_name
                                     <$> List.filter event_header lines));
                 data := payload |}.
Proof.
  intros lines payload. unfold parseEventBlock. fold lines.
  rewrite foldl_block_line. cbn [data event app]. done.
Qed.

(** X4. A block that the stream does not close is never delivered. A
    stream whose text holds no blank line yields nothing, and text without
    a newline in a last read changes nothing of what is yielded. *)
Theorem fetchSse_drops_open_block
    (o : bool) (st : N) (reads : list jstring) (tail : jstring) :
  (¬ occurs nlnl (concat reads) →
   (fetchSse {| ok := o; status := st; body := Some reads |}).1 = [])
  ∧ (nlfree tail →
     fetchSse {| ok := o; status := st; body := Some (reads ++ [tail]) |} =
     fetchSse {| ok := o; status := st; body := Some reads |}).
Proof.
  unfold fetchSse. cbn [body ok status]. split.
  - intros Hno. destruct o; [|done].
    rewrite read_loop_whole by done. cbn [app].
    by rewrite rest_has_no_events by by apply cut_not_None.
  - intros Htail. destruct o; [|done].
    rewrite !read_loop_whole by done. cbn [app].
    rewrite concat_app. change (concat [tail]) with (tail ++ []).
    rewrite app_nil_r, parseSseLines_app. cbn [events].
    rewrite (rest_has_no_events (rest (parseSseLines (concat reads)) ++ tail)).
    + by rewrite app_nil_r.
    + apply cut_nlnl_tail; [apply parseSseLines_parts | done].
Qed.

End WithPlatform.

(** A complete [delta] block followed by a [done] block that ends with a
    single newline: the second is not delivered. *)
Lemma fetchSse_drops_open_block_witness :
  (@fetchSse Json.reference
     {| ok := true; status := 200;
        body := Some [jsq "data: {'type':'delta','text':'he'}" ++ nl] |}).1 = []
  ∧ @fetchSse Json.reference
      {| ok := true; status := 200;
         body := Some ([jsq "data: {'type':'delta','text':'he'}" ++ nlnl]
                       ++ [jsq "data: {'type':'done'}"]) |}
    = @fetchSse Json.reference
        {| ok := true; status := 200;
           body := Some [jsq "data: {'type':'delta','text':'he'}" ++ nlnl] |}.
Proof.
  split.
  - apply (@fetchSse_drops_open_block Json.reference true 200%N
             [jsq "data: {'type':'delta','text':'he'}" ++ nl] []).
    apply cut_None. vm_compute. reflexivity.
  - apply (@fetchSse_drops_open_block Json.reference true 200%N
             [jsq "data: {'type':'delta','text':'he'}" ++ nlnl]
             (jsq "data: {'type':'done'}")).
    vm_compute. intros Hin.
    repeat (apply elem_of_cons in Hin as [Hin|Hin]; [discriminate Hin|]).
    by apply elem_of_nil in Hin.
Defined.

End SseMore.

(** ** More on the Flows page *)

Module FlowsMore.
Import Js Host Sse Framing SseView FlowsPage FlowsLoad PageValues JsFacts SseFacts.

Lemma setOutput_setOutput (a b : jstring) (st : State) :
  setOutput (λ p, p ++ b) (setOutput (λ p, p ++ a) st) =
  setOutput (λ p, p ++ (a ++ b)) st.
Proof. unfold setOutput. cbn. by rewrite app_assoc. Qed.

Lemma setOutput_nil (st : State) : setOutput (λ p, p ++ []) st = st.
Proof. destruct st. unfold setOutput. cbn. by rewrite app_nil_r. Qed.

Section WithPlatform.
Context `{Platform}.

Lemma on_evt_typed (m : SseMessage) (st : State) :
  on_evt (repr m) st = Normal (setOutput (λ p, p ++ render m) st).
Proof.
  destruct m; cbn [render]; rewrite ?setOutput_nil; reflexivity.
Qed.

Lemma for_await_typed (ms : list SseMessage) (st : State) :
  for_await (repr <$> ms) st =
  (setOutput (λ p, p ++ concat (render <$> ms)) st, Normal ()).
Proof.
  revert st. induction ms as [|m ms IH]; intros st.
  - cbn. by rewrite setOutput_nil.
  - cbn [fmap list_fmap for_await]. rewrite on_evt_typed, IH.
    by rewrite setOutput_setOutput.
Qed.

Lemma for_await_then (msgs1 msgs2 : list JsonValue) (st st1 : State) :
  for_await msgs1 st = (st1, Normal ()) →
  for_await (msgs1 ++ msgs2) st = for_await msgs2 st1.
Proof.
  revert st. induction msgs1 as [|evt msgs1 IH]; intros st.
  - by intros [= ->].
  - cbn [app for_await]. destruct (on_evt evt st); [apply IH | done].
Qed.

(** X5. What the page shows for messages of the declared type, in any
    number and order: the texts of the [delta] messages and, for each
    [error], a line [Error: <message>], in the order of arrival; [start],
    [done] and [model_info] show nothing, and the loop never throws. *)
Theorem run_shows_messages
    (ms : list SseMessage) (res : Response) (fin : completion ())
    (st : State) :
  fetchSse res = (repr <$> ms, fin) →
  run res st =
    ({| output := concat (render <$> ms); busy := false |}, fin).
Proof.
  intros Hres. unfold run. rewrite Hres, for_await_typed. reflexivity.
Qed.

(** X6. A payload that is the JSON value [null] stops the page: reading
    its [type] throws, the run ends with [TypeError], the page keeps what
    it showed before, shows none of the later messages, and is no longer
    busy. *)
Theorem run_stops_at_null
    (ms : list SseMessage) (later : list JsonValue) (res : Response)
    (fin : completion ()) (st : State) :
  fetchSse res = ((repr <$> ms) ++ JNull :: later, fin) →
  run res st =
    ({| output := concat (render <$> ms); busy := false |}, Throw TypeError).
Proof.
  intros Hres. unfold run. rewrite Hres.
  erewrite for_await_then by apply for_await_typed. reflexivity.
Qed.

(** X7. [load] is all or nothing. Either the response body is JSON whose
    [flow] is neither [null] nor missing, and then the four fields are set
    from it, [description] and [code] to the empty string when the flow
    has none; or [load] throws and the four fields are as before. In both
    cases the page is no longer busy. *)
Theorem load_all_or_nothing (res : Response) (st : Editor) :
  (∃ data f,
     json res = Normal data ∧ get data (js "flow") = Normal (Some f)
     ∧ f ≠ JNull
     ∧ ∃ id nm d c,
         get f (js "id") = Normal id ∧ get f (js "name") = Normal nm
         ∧ get f (js "description") = Normal d
         ∧ get f (js "code") = Normal c
         ∧ load res st =
             ({| selectedId := id; name := nm;
                 description := nullish_or d (JString []);
                 code := nullish_or c (JString []);
                 loading := false |}, Normal ()))
  ∨ (∃ e, load res st = (setLoading false st, Throw e)).
Proof.
  unfold load, load_body.
  destruct (json res) as [data|e] eqn:Hdata; [|right; exists e; reflexivity].
  destruct (get data (js "flow")) as [[f|]|e] eqn:Hflow;
    [|right; exists TypeError; reflexivity|right; exists e; reflexivity].
  destruct f;
    try (right; exists TypeError; reflexivity);
    left; eexists _, _; (split_and!; [reflexivity|exact Hflow|done|]);
    eexists _, _, _, _; split_and!; reflexivity.
Qed.

(** Where no updater throws, the loop body throws on [null] alone. *)
Lemma on_evt_total (evt : JsonValue) (st : State) :
  updaters_total evt = true →
  (evt = JNull ∧ on_evt evt st = Throw TypeError)
  ∨ (evt ≠ JNull ∧ ∃ st', on_evt evt st = Normal st').
Proof.
  intros Hevt.
  destruct evt as [|b|literal|str|elements|members];
    [by left | right; split; [done|]; by eexists.. |].
  right. split; [done|]. unfold on_evt. cbn [get mbind completion_bind].
  cbn [updaters_total] in Hevt. apply andb_prop in Hevt as [Hdelta Herror].
  unfold prints in Hdelta, Herror.
  destruct (is_string (get_own (js "type") members) (js "delta")).
  - destruct (ToString_opt (get_own (js "text") members)) as [s1|];
      [|done]. cbn [mbind completion_bind].
    destruct (is_string (get_own (js "type") members) (js "error")).
    + destruct (ToString_opt (get_own (js "message") members)) as [s2|];
        [|done]. by eexists.
    + by eexists.
  - cbn [mbind completion_bind].
    destruct (is_string (get_own (js "type") members) (js "error")).
    + destruct (ToString_opt (get_own (js "message") members)) as [s2|];
        [|done]. by eexists.
    + by eexists.
Qed.

(** X16. Whatever the stream yields, of the declared type or not, as
    long as no updater throws on it, the loop of the page only appends:
    what the page showed when the loop began is the beginning of what it
    shows when the loop ends or throws; and the loop throws exactly when
    a payload is [null], a [TypeError]. *)
Theorem page_only_appends (msgs : list JsonValue) (st : State) :
  Forall (λ evt, updaters_total evt = true) msgs →
  output st `prefix_of` output (for_await msgs st).1
  ∧ ((for_await msgs st).2 = Normal () ∧ JNull ∉ msgs
     ∨ (for_await msgs st).2 = Throw TypeError ∧ JNull ∈ msgs).
Proof.
  revert st. induction msgs as [|evt msgs IH]; intros st Hmsgs.
  - split; [done|]. left. split; [done|]. apply not_elem_of_nil.
  - inversion Hmsgs as [|? ? Hevt Hmsgs']; subst. cbn [for_await].
    destruct (on_evt_total evt st Hevt) as [[-> ->]|[Hne [st' Hst']]].
    + split; [done|]. right. split; [done|]. apply list_elem_of_here.
    + rewrite Hst'. destruct (IH st' Hmsgs') as [Hpre Hend]. split.
      * etrans; [|exact Hpre]. by eapply FlowsPageFacts.on_evt_appends.
      * destruct Hend as [[Hc Hnull]|[Hc Hnull]]; [left|right];
          (split; [done|]).
        -- by apply not_elem_of_cons.
        -- by apply list_elem_of_further.
Qed.

End WithPlatform.

(** A [delta], a [null] payload and a further [delta]. *)
Lemma run_stops_at_null_witness :
  @run Json.reference
    {| ok := true; status := 200;
       body := Some [jsq "data: {'type':'delta','text':'he'}" ++ nlnl
                     ++ js "data: null" ++ nlnl
                     ++ jsq "data: {'type':'delta','text':'llo'}" ++ nlnl] |}
    {| output := js "old"; busy := false |}
  = ({| output := js "he"; busy := false |}, Throw TypeError).
Proof.
  apply (@run_stops_at_null Json.reference [MsgDelta (js "he")]
           [repr (MsgDelta (js "llo"))] _ (Normal ())).
  vm_compute. reflexivity.
Defined.

(** A stream of all five shapes. *)
Lemma run_shows_messages_witness :
  @run Json.reference
    {| ok := true; status := 200;
       body := Some [jsq "data: {'type':'start'}" ++ nlnl
                     ++ jsq "data: {'type':'model_info','model':'m'}" ++ nlnl
                     ++ jsq "data: {'type':'delta','text':'he'}" ++ nlnl;
                     jsq "data: {'type':'error','message':'boom'}" ++ nlnl
                     ++ jsq "data: {'type':'done'}" ++ nlnl] |}
    {| output := js "old"; busy := true |}
  = ({| output := js "he" ++ nl ++ js "Error: boom" ++ nl; busy := false |},
     Normal ()).
Proof.
  apply (@run_shows_messages Json.reference
           [MsgStart; MsgModelInfo (js "m"); MsgDelta (js "he");
            MsgError (js "boom"); MsgDone] _ (Normal ())).
  vm_compute. reflexivity.
Defined.

(** A [delta] without [text], a bare string, an [error] whose [message] is
    an array, and a [done]. *)
Lemma page_only_appends_witness :
  let msgs := [JObject [(js "type", JString (js "delta"))];
               JString (js "hi");
               JObject [(js "type", JString (js "error"));
                        (js "message", JArray [JString (js "a"); JNull;
                                               JBool true])];
               JObject [(js "type", JString (js "done"))]] in
  let st := {| output := js "old"; busy := true |} in
  js "old" `prefix_of` output (@for_await Json.reference msgs st).1
  ∧ ((@for_await Json.reference msgs st).2 = Normal () ∧ JNull ∉ msgs
     ∨ (@for_await Json.reference msgs st).2 = Throw TypeError ∧ JNull ∈ msgs).
Proof.
  intros msgs st.
  apply (@page_only_appends Json.reference msgs st).
  repeat (constructor; [vm_compute; reflexivity|]). constructor.
Defined.

(** What the page shows for these values. *)
Example for_await_untyped :
  @for_await Json.reference
    [JObject [(js "type", JString (js "delta"))];
     JString (js "hi");
     JObject [(js "type", JString (js "error"));
              (js "message", JArray [JString (js "a"); JNull; JBool true])];
     JObject [(js "type", JString (js "done"))]]
    {| output := js "old"; busy := true |}
  = ({| output := js "oldundefined" ++ nl ++ js "Error: a,,true" ++ nl;
        busy := true |}, Normal ()).
Proof. by vm_compute. Qed.

End FlowsMore.

(** ** The chat page *)

Module ChatFacts.
Import Js Host Sse Framing FlowsPage ChatPage ChatSend PageValues JsFacts SseFacts.

(** *** Trimming *)

Lemma trimEnd_idem (s : jstring) : trimEnd (trimEnd s) = trimEnd s.
Proof.
  induction s as [|c s IH]; [done|]. cbn [trimEnd].
  destruct (trimEnd s) as [|x t] eqn:E.
  - destruct (isWhiteSpace c) eqn:Hc; [done|]. cbn [trimEnd]. by rewrite Hc.
  - cbn [trimEnd] in *. by rewrite IH.
Qed.

Lemma trimStart_idem (s : jstring) : trimStart (trimStart s) = trimStart s.
Proof.
  induction s as [|c s IH]; [done|]. cbn [trimStart].
  destruct (isWhiteSpace c) eqn:Hc; [done|]. cbn [trimStart]. by rewrite Hc.
Qed.

Lemma trim_comm (s : jstring) : trimEnd (trimStart s) = trimStart (trimEnd s).
Proof.
  induction s as [|c s IH]; [done|]. cbn [trimStart trimEnd].
  destruct (isWhiteSpace c) eqn:Hc.
  - rewrite IH. destruct (trimEnd s) as [|x t]; [done|].
    cbn [trimStart]. by rewrite Hc.
  - cbn [trimEnd]. destruct (trimEnd s) as [|x t]; cbn [trimStart];
      by rewrite Hc.
Qed.

Lemma trim_idem (s : jstring) : trim (trim s) = trim s.
Proof.
  unfold trim. by rewrite trim_comm, trimEnd_idem, trimStart_idem.
Qed.

Lemma elem_of_trimStart (x : N) (s : jstring) : x ∈ trimStart s → x ∈ s.
Proof.
  induction s as [|c s IH]; [done|]. cbn [trimStart].
  destruct (isWhiteSpace c); [|done].
  intros Hx. apply list_elem_of_further. by apply IH.
Qed.

Lemma elem_of_trimEnd (x : N) (s : jstring) : x ∈ trimEnd s → x ∈ s.
Proof.
  induction s as [|c s IH]; [done|]. cbn [trimEnd].
  destruct (trimEnd s) as [|y t].
  - destruct (isWhiteSpace c); [by intros ?%elem_of_nil|].
    intros ->%list_elem_of_singleton. apply list_elem_of_here.
  - intros [->|Hx]%elem_of_cons; [apply list_elem_of_here|].
    apply list_elem_of_further. by apply IH.
Qed.

Lemma elem_of_trim (x : N) (s : jstring) : x ∈ trim s → x ∈ s.
Proof. intros Hx%elem_of_trimStart. by apply elem_of_trimEnd. Qed.

Lemma split_single_free (c : N) (s : jstring) :
  Forall (λ part, c ∉ part) (split [c] s).
Proof.
  apply (split_ind [c] (λ _ l, Forall (λ part, c ∉ part) l)); [done|..].
  - intros s' Hc. constructor; [|done].
    intros Hin. apply (cut_None _ _ Hc).
    apply list_elem_of_split in Hin as (a & b & ->). by exists a, b.
  - intros s' a b Hc IH. constructor; [|done].
    clear IH. revert a b Hc. induction s' as [|x s' IH]; intros a b; [done|].
    cbn [cut startsWith].
    destruct (N.eqb_spec c x) as [?|Hx]; cbn [andb].
    + intros [= <- _]. apply not_elem_of_nil.
    + destruct (cut [c] s') as [[a' b']|]; [|done].
      intros [= <- _]. apply not_elem_of_cons.
      split; [done | by apply (IH a' b')].
Qed.

(** The parts of [trimmed_parts] are not empty, are trimmed, and hold no
    separator character. *)
Lemma trimmed_parts_clean (c : N) (text : jstring) :
  Forall (λ part, part ≠ [] ∧ trim part = part ∧ c ∉ part)
         (trimmed_parts [c] text).
Proof.
  unfold trimmed_parts. apply Forall_forall. intros part Hin.
  apply list_elem_of_In, List.filter_In in Hin as [Hin Hne].
  apply list_elem_of_In, list_elem_of_fmap in Hin as (raw & -> & Hraw).
  split_and!.
  - by destruct (trim raw).
  - apply trim_idem.
  - intros Hc%elem_of_trim.
    pose proof (split_single_free c text) as Hfree.
    rewrite Forall_forall in Hfree. by apply (Hfree raw).
Qed.

(** X8. The routing sent in [auto] mode is well formed whatever the
    settings hold: there is at least one label and one output model, every
    label is non-empty, trimmed and free of commas, the custom prompt is
    the one typed, and the classifier model is empty only if the selected
    model is. No routing is sent in the other modes. *)
Theorem routing_of_well_formed
    (advanced : bool)
    (labelsText outputModelsText classifierModel model prompt : jstring) :
  (∃ r,
     routing_of auto advanced labelsText outputModelsText classifierModel
                model prompt = Some r
     ∧ labels r ≠ [] ∧ output_models r ≠ []
     ∧ Forall (λ l, l ≠ [] ∧ trim l = l ∧ 44%N ∉ l) (labels r)
     ∧ custom_classifier_prompt r = (if advanced then prompt else [])
     ∧ (classifier_model r ≠ [] ∨ model = []))
  ∧ routing_of chat advanced labelsText outputModelsText classifierModel
               model prompt = None
  ∧ routing_of zflow advanced labelsText outputModelsText classifierModel
               model prompt = None.
Proof.
  split_and!; [|done..].
  assert (Forall (λ l, l ≠ [] ∧ trim l = l ∧ 44%N ∉ l)
                 [js "nonlogical"; js "logical"]) as Hdefault.
  { repeat constructor; try done;
      intros Hin; vm_compute in Hin;
      repeat (apply elem_of_cons in Hin as [Hin|Hin]; [discriminate Hin|]);
      by apply elem_of_nil in Hin. }
  unfold routing_of. destruct advanced; eexists; (split; [reflexivity|]);
    cbn [labels output_models custom_classifier_prompt classifier_model].
  - pose proof (trimmed_parts_clean 44 labelsText) as Hl.
    change [44%N] with (js ",") in Hl.
    split_and!.
    + by destruct (trimmed_parts (js ",") labelsText).
    + by destruct (trimmed_parts nl outputModelsText).
    + by destruct (trimmed_parts (js ",") labelsText).
    + unfold or_else. by destruct prompt.
    + unfold or_else. destruct classifierModel, model; cbn; by eauto.
  - split_and!; try done. destruct model; by eauto.
Qed.

(** *** [historyTurns] *)

Lemma history_step_acc (turns : list Turn) (lastUser : jstring)
    (m : ChatMessage) :
  history_step (turns, lastUser) m =
    (turns ++ (history_step ([], lastUser) m).1,
     (history_step ([], lastUser) m).2).
Proof.
  unfold history_step.
  destruct (role m); cbn [fst snd]; [by rewrite app_nil_r | done].
Qed.

Lemma foldl_history_acc (ms : list ChatMessage) (turns : list Turn)
    (lastUser : jstring) :
  foldl history_step (turns, lastUser) ms =
    (turns ++ (foldl history_step ([], lastUser) ms).1,
     (foldl history_step ([], lastUser) ms).2).
Proof.
  revert turns lastUser. induction ms as [|m ms IH]; intros turns lastUser.
  - cbn. by rewrite app_nil_r.
  - cbn [foldl]. rewrite history_step_acc.
    destruct (history_step ([], lastUser) m) as [new lu] eqn:E. cbn [fst snd].
    rewrite (IH (turns ++ new)), (IH new). cbn [fst snd].
    by rewrite app_assoc.
Qed.

Lemma foldl_history_assistants (ms : list ChatMessage) (lastUser : jstring) :
  turn_assistant <$> (foldl history_step ([], lastUser) ms).1
  = content <$> List.filter is_assistant ms.
Proof.
  revert lastUser. induction ms as [|m ms IH]; intros lastUser; [done|].
  cbn [foldl List.filter]. unfold history_step at 2, is_assistant at 1.
  destruct (role m).
  - apply IH.
  - rewrite foldl_history_acc. cbn [fst]. rewrite fmap_app, IH. done.
Qed.

(** X9. [historyTurns] makes one turn per assistant message, in order,
    each with the content of its assistant message. *)
Theorem historyTurns_assistants (ms : list ChatMessage) :
  turn_assistant <$> historyTurns ms = content <$> List.filter is_assistant ms
  ∧ length (historyTurns ms) = length (List.filter is_assistant ms).
Proof.
  pose proof (foldl_history_assistants ms []) as Heq.
  split; [exact Heq|].
  apply (f_equal length) in Heq. by rewrite !length_fmap in Heq.
Qed.

(** X10. A conversation of completed turns (a user message followed by
    the assistant's answer, turn after turn) gives these turns back. *)
Theorem historyTurns_of_turns (turns : list Turn) :
  historyTurns (turns ≫= turn_messages) = turns.
Proof.
  unfold historyTurns.
  assert (foldl history_step ([], []) (turns ≫= turn_messages) =
          (turns, [])) as Hfold; [|by rewrite Hfold].
  induction turns as [|[u a] turns IH]; [done|].
  cbn [mbind list_bind turn_messages app foldl turn_user turn_assistant].
  change (history_step
            (history_step ([], [])
               {| role := user; content := u; model := None |})
            {| role := assistant; content := a; model := None |})
    with ([{| turn_user := u; turn_assistant := a |}], @nil N).
  rewrite foldl_history_acc.
  change (foldr _ [] turns) with (turns ≫= turn_messages).
  by rewrite IH.
Qed.

(** *** [send] in Zflow mode *)

Section WithPlatform.
Context `{Platform}.
Variable engine_message : Exn → jstring.

Lemma update_last_assistant_snoc (f : ChatMessage → completion ChatMessage)
    (prev : list ChatMessage) (m : ChatMessage) :
  role m = assistant →
  update_last_assistant f (prev ++ [m]) =
    (m' ← f m; Normal (prev ++ [m'])).
Proof.
  intros Hrole. unfold update_last_assistant. rewrite reverse_snoc.
  cbn [update_first_assistant]. rewrite Hrole.
  destruct (f m) as [m'|e]; cbn [mbind completion_bind]; [|done].
  by rewrite reverse_cons, reverse_involutive.
Qed.

(** Where no updater throws, the loop body throws on [null] alone, and
    otherwise rewrites the content of the assistant message at the end,
    and nothing else. *)
Lemma on_evt_last (evt : JsonValue) (prev : list ChatMessage)
    (shown : jstring) (mo : option jstring) :
  updaters_total evt = true →
  (evt = JNull
   ∧ on_evt evt (prev ++ [{| role := assistant; content := shown;
                             model := mo |}]) = Throw TypeError)
  ∨ (evt ≠ JNull
     ∧ ∃ shown',
         on_evt evt (prev ++ [{| role := assistant; content := shown;
                                 model := mo |}])
         = Normal (prev ++ [{| role := assistant; content := shown';
                               model := mo |}])).
Proof.
  intros Hevt.
  destruct evt as [|b|literal|str|elements|members];
    [by left | right; split; [done|]; by eexists.. |].
  right. split; [done|]. unfold on_evt. cbn [get mbind completion_bind].
  cbn [updaters_total] in Hevt. apply andb_prop in Hevt as [Hdelta Herror].
  unfold prints in Hdelta, Herror.
  destruct (is_string (get_own (js "type") members) (js "delta")).
  - rewrite update_last_assistant_snoc by done.
    destruct (ToString_opt (get_own (js "text") members)) as [s1|];
      [|done]. cbn [mbind completion_bind]. by eexists.
  - destruct (is_string (get_own (js "type") members) (js "error")).
    + rewrite update_last_assistant_snoc by done.
      cbn [mbind completion_bind].
      destruct (ToString_opt (get_own (js "message") members)) as [s2|];
        [|done]. cbn [mbind completion_bind]. by eexists.
    + by eexists.
Qed.

Lemma for_await_last (msgs : list JsonValue) (prev : list ChatMessage)
    (shown : jstring) (mo : option jstring) :
  Forall (λ evt, updaters_total evt = true) msgs →
  ∃ shown' c,
    for_await_zflow msgs
      (prev ++ [{| role := assistant; content := shown; model := mo |}])
    = (prev ++ [{| role := assistant; content := shown'; model := mo |}], c)
    ∧ (c = Normal () ∧ JNull ∉ msgs ∨ c = Throw TypeError ∧ JNull ∈ msgs).
Proof.
  revert shown. induction msgs as [|evt msgs IH]; intros shown Hmsgs.
  - eexists _, _. split; [done|]. left. split; [done|]. apply not_elem_of_nil.
  - inversion Hmsgs as [|? ? Hevt Hmsgs']; subst. cbn [for_await_zflow].
    destruct (on_evt_last evt prev shown mo Hevt)
      as [[-> ->]|[Hne [shown' ->]]].
    + eexists _, _. split; [done|]. right. split; [done|].
      apply list_elem_of_here.
    + destruct (IH shown' Hmsgs') as (shown'' & c & Hloop & Hend).
      exists shown'', c. split; [done|].
      destruct Hend as [[Hc Hnull]|[Hc Hnull]]; [left|right];
        (split; [done|]).
      * by apply not_elem_of_cons.
      * by apply list_elem_of_further.
Qed.

Lemma chat_on_evt_typed (m : SseMessage) (prev : list ChatMessage)
    (shown : jstring) (mo : option jstring) :
  on_evt (repr m) (prev ++ [{| role := assistant; content := shown;
                               model := mo |}])
  = Normal (prev ++ [{| role := assistant; content := chat_content shown m;
                        model := mo |}]).
Proof.
  destruct m; unfold on_evt; cbn [repr get mbind completion_bind];
    [reflexivity| |reflexivity| |reflexivity].
  - change (is_string _ (js "delta")) with true. cbn iota.
    rewrite update_last_assistant_snoc by done. reflexivity.
  - change (is_string _ (js "delta")) with false.
    change (is_string _ (js "error")) with true. cbn iota.
    rewrite update_last_assistant_snoc by done. reflexivity.
Qed.

Lemma chat_for_await_typed (ms : list SseMessage) (prev : list ChatMessage)
    (shown : jstring) (mo : option jstring) :
  for_await_zflow (repr <$> ms)
    (prev ++ [{| role := assistant; content := shown; model := mo |}])
  = (prev ++ [{| role := assistant; content := foldl chat_content shown ms;
                 model := mo |}], Normal ()).
Proof.
  revert shown. induction ms as [|m ms IH]; intros shown; [done|].
  cbn [fmap list_fmap for_await_zflow foldl].
  by rewrite chat_on_evt_typed, IH.
Qed.

(** X11. [send] never rewrites the conversation. With nothing to send or
    while busy it changes nothing. Otherwise, whatever the stream holds,
    as long as no updater throws on what it yields, the messages
    afterwards are the messages before, the user's trimmed text, one
    assistant message, and after it at most one assistant message that
    reports an exception: the one [fetchSse] ends with, or the
    [TypeError] of the loop body on a [null] payload; the input is cleared
    and the page is no longer busy. *)
Theorem send_keeps_history (res : Response) (st : ChatState) :
  Forall (λ evt, updaters_total evt = true) (fetchSse res).1 →
  if is_empty (trim (input st)) || sending st
  then send engine_message res st = st
  else
    ∃ shown tail,
      send engine_message res st =
        {| messages := messages st
                       ++ [user_message (trim (input st));
                           assistant_message shown] ++ tail;
           input := []; sending := false |}
      ∧ (tail = [] ∧ (fetchSse res).2 = Normal () ∧ JNull ∉ (fetchSse res).1
         ∨ ∃ e, tail = [assistant_message
                          (js "Error: " ++ message_of engine_message e)]
                ∧ (e = TypeError ∧ JNull ∈ (fetchSse res).1
                   ∨ (fetchSse res).2 = Throw e ∧ JNull ∉ (fetchSse res).1)).
Proof.
  intros Hyielded.
  unfold send. destruct (is_empty (trim (input st)) || sending st); [done|].
  destruct (fetchSse res) as [yielded fin]. cbn [fst snd] in *.
  destruct (for_await_last yielded
              (messages st ++ [user_message (trim (input st))]) [] None
              Hyielded)
    as (shown & c & Hloop & Hend).
  unfold assistant_message at 1. rewrite <- app_assoc in Hloop.
  cbn [app] in Hloop. rewrite Hloop.
  exists shown.
  destruct Hend as [[-> Hnull]|[-> Hnull]]; [destruct fin as [[]|e]|].
  - exists []. split; [by rewrite <- !app_assoc|]. by left.
  - eexists [_]. split; [by rewrite <- !app_assoc|].
    right. exists e. split; [done|]. by right.
  - eexists [_]. split; [by rewrite <- !app_assoc|].
    right. exists TypeError. split; [done|]. by left.
Qed.

(** X12. What [send] leaves in the conversation. For a stream of messages
    of the declared type that ends normally, the new assistant message
    holds the texts of the [delta] messages in order, but an [error]
    replaces all that was written with [Error: <message>]; for
    a response that is not [ok], the assistant message stays empty and a
    second one reports [Error: HTTP <status>]. *)
Theorem send_outcome
    (ms : list SseMessage) (res : Response) (st : ChatState) :
  is_empty (trim (input st)) || sending st = false →
  (fetchSse res = (repr <$> ms, Normal ()) →
   send engine_message res st =
     {| messages := messages st
                    ++ [user_message (trim (input st));
                        assistant_message (foldl chat_content [] ms)];
        input := []; sending := false |})
  ∧ (ok res = false →
     send engine_message res st =
       {| messages := messages st
                      ++ [user_message (trim (input st));
                          assistant_message [];
                          assistant_message
                            (js "Error: HTTP "
                             ++ uint_digits (N.to_uint (status res)))];
          input := []; sending := false |}).
Proof.
  intros Hguard. unfold send. rewrite Hguard. split.
  - intros ->.
    pose proof (chat_for_await_typed ms
                  (messages st ++ [user_message (trim (input st))]) [] None)
      as Hloop.
    rewrite <- app_assoc in Hloop. cbn [app] in Hloop.
    unfold assistant_message at 1. rewrite Hloop.
    by rewrite <- app_assoc.
  - intros Hok. unfold fetchSse. rewrite Hok.
    destruct (body res); cbn; by rewrite <- app_assoc.
Qed.

End WithPlatform.

(** Two deltas; a delta and then an error; a response with status 502. *)
Lemma send_outcome_witness :
  let st := {| messages := [user_message (js "hi"); assistant_message (js "yo")];
               input := js "  i->A_p1 "; sending := false |} in
  messages
    (@send Json.reference (λ _, js "?")
       {| ok := true; status := 200;
          body := Some [jsq "data: {'type':'delta','text':'he'}" ++ nlnl;
                        jsq "data: {'type':'delta','text':'llo'}" ++ nlnl] |}
       st)
  = [user_message (js "hi"); assistant_message (js "yo");
     user_message (js "i->A_p1"); assistant_message (js "hello")]
  ∧ messages
      (@send Json.reference (λ _, js "?")
         {| ok := true; status := 200;
            body := Some [jsq "data: {'type':'delta','text':'he'}" ++ nlnl
                          ++ jsq "data: {'type':'error','message':'boom'}"
                          ++ nlnl] |}
         st)
    = [user_message (js "hi"); assistant_message (js "yo");
       user_message (js "i->A_p1"); assistant_message (js "Error: boom")]
  ∧ messages
      (@send Json.reference (λ _, js "?")
         {| ok := false; status := 502; body := None |} st)
    = [user_message (js "hi"); assistant_message (js "yo");
       user_message (js "i->A_p1"); assistant_message [];
       assistant_message (js "Error: HTTP 502")].
Proof.
  intros st. split_and!.
  - destruct (@send_outcome Json.reference (λ _, js "?")
                [MsgDelta (js "he"); MsgDelta (js "llo")]
                {| ok := true; status := 200;
                   body := Some [jsq "data: {'type':'delta','text':'he'}" ++ nlnl;
                                 jsq "data: {'type':'delta','text':'llo'}" ++ nlnl] |}
                st) as [Hrun _]; [reflexivity|].
    rewrite Hrun; [reflexivity|]. by vm_compute.
  - destruct (@send_outcome Json.reference (λ _, js "?")
                [MsgDelta (js "he"); MsgError (js "boom")]
                {| ok := true; status := 200;
                   body := Some [jsq "data: {'type':'delta','text':'he'}" ++ nlnl
                                 ++ jsq "data: {'type':'error','message':'boom'}"
                                 ++ nlnl] |}
                st) as [Hrun _]; [reflexivity|].
    rewrite Hrun; [reflexivity|]. by vm_compute.
  - destruct (@send_outcome Json.reference (λ _, js "?") []
                {| ok := false; status := 502; body := None |} st)
      as [_ Hhttp]; [reflexivity|].
    rewrite Hhttp; reflexivity.
Defined.

(** A [delta] without [text], a bare string and a [null] payload: the
    loop body throws at the [null], and the conversation before is kept. *)
Lemma send_keeps_history_witness :
  let st := {| messages := [user_message (js "hi"); assistant_message (js "yo")];
               input := js "  i->A_p1 "; sending := false |} in
  let res := {| ok := true; status := 200;
                body := Some [jsq "data: {'type':'delta'}" ++ nlnl;
                              jsq "data: 'hi'" ++ nlnl ++ js "data: null"
                              ++ nlnl] |} in
  ∃ shown tail,
    @send Json.reference (λ _, js "?") res st =
      {| messages := [user_message (js "hi"); assistant_message (js "yo")]
                     ++ [user_message (js "i->A_p1");
                         assistant_message shown] ++ tail;
         input := []; sending := false |}
    ∧ (tail = [] ∧ (@fetchSse Json.reference res).2 = Normal ()
                 ∧ JNull ∉ (@fetchSse Json.reference res).1
       ∨ ∃ e, tail = [assistant_message
                        (js "Error: " ++ message_of (λ _, js "?") e)]
              ∧ (e = TypeError ∧ JNull ∈ (@fetchSse Json.reference res).1
                 ∨ (@fetchSse Json.reference res).2 = Throw e
                   ∧ JNull ∉ (@fetchSse Json.reference res).1)).
Proof.
  intros st res.
  apply (@send_keeps_history Json.reference (λ _, js "?") res st).
  vm_compute. repeat (constructor; [reflexivity|]). constructor.
Defined.

(** What [send] leaves for this stream. *)
Example send_untyped :
  messages
    (@send Json.reference (λ _, js "?")
       {| ok := true; status := 200;
          body := Some [jsq "data: {'type':'delta'}" ++ nlnl;
                        jsq "data: 'hi'" ++ nlnl ++ js "data: null"
                        ++ nlnl] |}
       {| messages := [user_message (js "hi"); assistant_message (js "yo")];
          input := js "  i->A_p1 "; sending := false |})
  = [user_message (js "hi"); assistant_message (js "yo");
     user_message (js "i->A_p1"); assistant_message (js "undefined");
     assistant_message (js "Error: ?")].
Proof. by vm_compute. Qed.

End ChatFacts.

(** ** The providers of locale and theme *)

Module ProvidersFacts.
Import Js Providers.


















End ProvidersFacts.
